(** * LiteX Verilog backend: [litex/gen/fhdl/verilog.py]

    A shallow embedding of the FHDL-to-Verilog printer.  Python values are
    modelled as the source has them: integers as [Z], text as [string],
    exceptions as an error result, sets and dicts as insertion-ordered lists
    keyed by object identity (a signal's [duid]).  Functions imported from
    Migen ([migen.fhdl.tools], [migen.fhdl.structure]) and from other LiteX
    modules are not part of this file's source; the printer consumes them
    through the [Collaborators] interface below. *)

From Stdlib Require Import String Ascii List ZArith Lia Bool.
From Stdlib Require Import DecimalString DecimalZ DecimalPos.
From Stdlib Require Import Sorting.Sorted Sorting.Permutation.
Import ListNotations.
Set Warnings "-register-all".
Open Scope Z_scope.
Open Scope list_scope.
Open Scope string_scope.

(** ** Python base layer *)

Module Py.

Inductive Exn : Type :=
| AssertionError
| TypeError (msg : string)
| KeyError (key : string)
| IndexError
| NotImplementedError (msg : string)
| Exception (msg : string).

Inductive Result (A : Type) : Type :=
| Ok (a : A)
| Raise (e : Exn).
Arguments Ok {A} a.
Arguments Raise {A} e.

Definition bind {A B} (m : Result A) (k : A -> Result B) : Result B :=
  match m with
  | Ok a => k a
  | Raise e => Raise e
  end.

(** [assert b] *)
Definition assert (b : bool) : Result unit :=
  if b then Ok tt else Raise AssertionError.

(** [str(n)] for a Python int. *)
Definition str (z : Z) : string := NilZero.string_of_int (Z.to_int z).

Definition tab : string := String (ascii_of_nat 9) EmptyString.
Definition nl : string := String (ascii_of_nat 10) EmptyString.
Definition dquote : string := String (ascii_of_nat 34) EmptyString.

(** ["\t"*level] *)
Fixpoint tabs (level : nat) : string :=
  match level with
  | O => ""
  | S n => tab ++ tabs n
  end.

(** [sep.join(l)] *)
Definition join (sep : string) (l : list string) : string := String.concat sep l.

(** ["".join(l)] and the result of [r += x] over a sequence. *)
Fixpoint cat (l : list string) : string :=
  match l with
  | [] => ""
  | x :: l' => x ++ cat l'
  end.

(** [sorted(l, key=...)]: a stable sort; [le x y] compares the keys. *)
Fixpoint insert_by {A} (le : A -> A -> bool) (x : A) (l : list A) : list A :=
  match l with
  | [] => [x]
  | y :: l' => if le x y then x :: l else y :: insert_by le x l'
  end.

Fixpoint sorted {A} (le : A -> A -> bool) (l : list A) : list A :=
  match l with
  | [] => []
  | x :: l' => insert_by le x (sorted le l')
  end.

(** The same sort when comparing two keys can raise (mixed key types).
    [le x y] is asked with [x] the element being inserted and [y] one that
    came after it in the input.  The pairs are met in the order of this
    insertion sort, which need not be the order in which Python's sort meets
    them; on totally ordered keys the result is the stable sort either way. *)
Fixpoint insert_byR {A} (le : A -> A -> Result bool) (x : A) (l : list A)
  : Result (list A) :=
  match l with
  | [] => Ok [x]
  | y :: l' =>
      bind (le x y) (fun b =>
        if b then Ok (x :: l)
        else bind (insert_byR le x l') (fun r => Ok (y :: r)))
  end.

Fixpoint sortedR {A} (le : A -> A -> Result bool) (l : list A) : Result (list A) :=
  match l with
  | [] => Ok []
  | x :: l' => bind (sortedR le l') (insert_byR le x)
  end.

End Py.
Export Py.

Notation "x <- m ;; k" := (Py.bind m (fun x => k))
  (at level 61, m at next level, right associativity).
Notation "' pat <- m ;; k" := (Py.bind m (fun x => match x with pat => k end))
  (at level 61, pat pattern, m at next level, right associativity).

(** ** Data model (the parts of [migen.fhdl.structure] the printer reads) *)

Record Constant : Type := {
  c_value : Z;
  c_nbits : Z;
  c_signed : bool
}.

Inductive AttrValue : Type :=
| AStr (s : string)
| AInt (n : Z).

(** An element of a signal's [attr] set: a bare name, or a (name, value) tuple. *)
Inductive Attr : Type :=
| AttrName (name : string)
| AttrTuple (name : string) (value : AttrValue).

Record Signal : Type := {
  duid : Z;                        (* object identity and creation order *)
  nbits : Z;                       (* len(signal) *)
  signed : bool;
  reset : Constant;
  name_override : option string;
  variable : bool;
  attr : list Attr;
  backtrace : list (option string) (* entry[0] of each backtrace element *)
}.

Inductive Expr : Type :=
| EConstant (c : Constant)
| ESignal (s : Signal)
| EOperator (op : string) (operands : list Expr)
| ESlice (value : Expr) (start stop : Z)
| ECat (l : list Expr)
| EReplicate (v : Expr) (n : Z)
| EOther (type_name : string).     (* any other object *)

Inductive CaseKey : Type :=
| KConstant (c : Constant)
| KStr (s : string).

Inductive DisplayArg : Type :=
| DSignal (s : Signal)
| DOther (text : string).          (* str(arg) of a non-signal argument *)

(** Statements as [_print_node] tells them apart.  [SList] is any iterable
    of statements: the source tests for an iterable before it tests for [If]
    and [Case], which are not iterable.  [SOther] is an object of any other
    type that is not iterable, [type_name] being [str(type(node))].  A foreign
    iterable (a [str], say, whose elements are again [str]) is walked by the
    source element by element and has no counterpart in this type. *)
Inductive Stmt : Type :=
| SAssign (l r : Expr)
| SList (body : list Stmt)         (* any iterable of statements *)
| SIf (cond : Expr) (t f : list Stmt)
| SCase (test : Expr) (cases : list (CaseKey * list Stmt))
| SDisplay (s : string) (args : list DisplayArg)
| SFinish
| SOther (type_name : string).

Record ClockDomain : Type := {
  cd_name : string;
  clk : Signal;
  rst : option Signal
}.

(** The namespace object handed to every printer: [ns.get_name(sig)]. *)
Record Namespace : Type := {
  get_name : Signal -> string;
  ns_clock_domains : list ClockDomain
}.

(** Sets of signals: membership is by identity. *)
Definition same_signal (a b : Signal) : bool := (duid a =? duid b)%Z.

Definition sig_in (s : Signal) (l : list Signal) : bool :=
  existsb (same_signal s) l.

Fixpoint sig_union (a b : list Signal) : list Signal :=
  match b with
  | [] => a
  | s :: b' => if sig_in s a then sig_union a b' else sig_union (a ++ [s])%list b'
  end.

Definition sig_diff (a b : list Signal) : list Signal :=
  filter (fun s => negb (sig_in s b)) a.

Definition by_duid (a b : Signal) : bool := (duid a <=? duid b)%Z.

(** ** Print Signal *)

Definition _print_signal (ns : Namespace) (s : Signal) : string :=
  (if negb (signed s) then "" else "signed ") ++
  (if (nbits s <=? 1)%Z then "" else "[" ++ str (nbits s - 1) ++ ":0] ") ++
  get_name ns s.

(** ** Print Constant *)

Definition _print_constant (node : Constant) : string * bool :=
  ((if (c_value node >=? 0)%Z then "" else "-") ++
   str (c_nbits node) ++ "'d" ++ str (Z.abs (c_value node)),
   c_signed node).

(** ** Print Operator, Slice, Cat, Replicate, Expression *)

Definition UNARY : nat := 1.
Definition BINARY : nat := 2.
Definition TERNARY : nat := 3.

(** The local helper of [_print_operator]:
    [f"$signed({{1'd0 {r}}}))"]. *)
Definition to_signed (r : string) : string := "$signed({1'd0 " ++ r ++ "}))".

Definition is_shift (operator : string) : bool :=
  (operator =? "<<<") || (operator =? ">>>").

Definition is_1bit_signal (e : Expr) : bool :=
  match e with
  | ESignal s => (nbits s =? 1)%Z
  | _ => false
  end.

Fixpoint _print_expression (ns : Namespace) (node : Expr) {struct node}
  : Result (string * bool) :=
  match node with
  | EConstant c => Ok (_print_constant c)
  | ESignal s => Ok (get_name ns s, signed s)
  | EOperator operator operands =>
      (* _print_operator *)
      match operands with
      | [o1] =>
          '(r1, s1) <- _print_expression ns o1 ;;
          if operator =? "-"
          then Ok ("(" ++ ("-" ++ (if s1 then r1 else to_signed r1)) ++ ")", true)
          else Ok ("(" ++ (operator ++ r1) ++ ")", s1)
      | [o1; o2] =>
          '(r1, s1) <- _print_expression ns o1 ;;
          '(r2, s2) <- _print_expression ns o2 ;;
          let r1' := if negb (is_shift operator) && (s2 && negb s1)
                     then to_signed r1 else r1 in
          let r2' := if negb (is_shift operator) && (s1 && negb s2)
                     then to_signed r2 else r2 in
          Ok ("(" ++ (r1' ++ " " ++ operator ++ " " ++ r2') ++ ")", s1 || s2)
      | [o1; o2; o3] =>
          _ <- assert (operator =? "m") ;;
          '(r1, s1) <- _print_expression ns o1 ;;
          '(r2, s2) <- _print_expression ns o2 ;;
          '(r3, s3) <- _print_expression ns o3 ;;
          let r3' := if s2 && negb s3 then to_signed r3 else r3 in
          let r2' := if s3 && negb s2 then to_signed r2 else r2 in
          Ok ("(" ++ (r1 ++ " ? " ++ r2' ++ " : " ++ r3') ++ ")", s2 || s3)
      | _ => Raise AssertionError
      end
  | ESlice value start stop =>
      (* _print_slice *)
      _ <- assert (stop - start >=? 1)%Z ;;
      sr <- (if is_1bit_signal value
             then _ <- assert (start =? 0)%Z ;; Ok ""
             else Ok (if (stop - start >? 1)%Z
                      then "[" ++ str (stop - 1) ++ ":" ++ str start ++ "]"
                      else "[" ++ str start ++ "]")) ;;
      '(r, s) <- _print_expression ns value ;;
      Ok (r ++ sr, s)
  | ECat l =>
      (* _print_cat: the operands are visited last to first *)
      let fix visit_reversed (l : list Expr) : Result (list string) :=
        match l with
        | [] => Ok []
        | v :: l' =>
            rs <- visit_reversed l' ;;
            '(r, _) <- _print_expression ns v ;;
            Ok (rs ++ [r])%list
        end in
      rs <- visit_reversed l ;;
      Ok ("{" ++ join ", " rs ++ "}", false)
  | EReplicate v n =>
      (* _print_replicate *)
      '(r, _) <- _print_expression ns v ;;
      Ok ("{" ++ str n ++ "{" ++ r ++ "}}", false)
  | EOther type_name =>
      Raise (TypeError ("Expression of unrecognized type: '" ++ type_name ++ "'"))
  end.

(** The three printers the dispatcher calls, under their source names. *)
Definition _print_operator (ns : Namespace) (operator : string) (operands : list Expr) :=
  _print_expression ns (EOperator operator operands).

Definition _print_slice (ns : Namespace) (value : Expr) (start stop : Z) :=
  _print_expression ns (ESlice value start stop).

Definition _print_cat (ns : Namespace) (l : list Expr) :=
  _print_expression ns (ECat l).

Definition _print_replicate (ns : Namespace) (v : Expr) (n : Z) :=
  _print_expression ns (EReplicate v n).

(** ** Fragments, structural primitives and the consumed interfaces *)

Record Special : Type := {
  sp_duid : Z;
  sp_str : string;                 (* str(special) *)
  sp_attr : option (list Attr);    (* None: the object has no attr *)
  sp_is_memory : bool              (* isinstance(special, Memory) *)
}.

Record Fragment : Type := {
  comb : list Stmt;
  sync : list (string * list Stmt);        (* dict, in insertion order *)
  specials : list Special;
  clock_domains : list ClockDomain
}.

(** An auxiliary file registered through [add_data_file]. *)
Definition DataFile : Type := (string * string)%type.

(** What the printer imports.  The set-valued functions return their result
    in iteration order. *)
Class Collaborators : Type := {
  Overrides : Type;
  (* migen.fhdl.tools *)
  list_targets : Stmt -> list Signal;
  list_targets_fragment : Fragment -> list Signal;
  list_signals : Fragment -> list Signal;
  list_special_ios : Fragment -> bool -> bool -> bool -> list Signal;
  list_clock_domains : Fragment -> list string;
  group_by_targets : list Stmt -> list (list Signal * list Stmt);
  flat_iteration : list Stmt -> list Stmt;
  is_variable : Expr -> Result bool;
  (* migen.fhdl.structure: [ClockDomain(name)] allocates the domain's clock and
     reset signals from the identifier counter and returns
     (name, clk, rst, next identifier) *)
  new_ClockDomain : string -> Z -> Result (string * Signal * Signal * Z);
  lower_complex_slices : Fragment -> Result Fragment;
  insert_resets : Fragment -> Result Fragment;
  lower_basics : Fragment -> Result Fragment;
  lower_specials : Overrides -> Fragment -> Result (Fragment * list Special);
  call_special_classmethod :
    Overrides -> Special -> Namespace -> Result (option string * list DataFile);
  (* litex.gen.fhdl.memory, litex.build.tools *)
  memory_emit_verilog : Special -> Namespace -> Result (option string * list DataFile);
  generated_banner : string -> string
}.

(** [for x in l: ...] with a loop-carried state and exceptions. *)
Fixpoint foldR {A S : Type} (step : S -> A -> Result S) (l : list A) (s : S)
  : Result S :=
  match l with
  | [] => Ok s
  | x :: l' => s' <- step s x ;; foldR step l' s'
  end.

(** ** Print Node *)

Inductive AssignType : Type := _AT_BLOCKING | _AT_NONBLOCKING | _AT_SIGNAL.

Definition expr_text (ns : Namespace) (e : Expr) : Result string :=
  '(r, _) <- _print_expression ns e ;; Ok r.

Section Printer.
Context {collab : Collaborators}.

(** [target_filter is not None and target_filter not in list_targets(node)] *)
Definition filtered_out (target_filter : option Signal) (node : Stmt) : bool :=
  match target_filter with
  | None => false
  | Some t => negb (sig_in t (list_targets node))
  end.

Definition assignment_text (at_ : AssignType) (l : Expr) : Result string :=
  match at_ with
  | _AT_BLOCKING => Ok " = "
  | _AT_NONBLOCKING => Ok " <= "
  | _AT_SIGNAL => v <- is_variable l ;; Ok (if v then " = " else " <= ")
  end.

Definition case_key_value (x : Constant * Result string) : Z := c_value (fst x).

Definition constant_arms (arms : list (CaseKey * Result string))
  : list (Constant * Result string) :=
  flat_map (fun kv => match fst kv with
                      | KConstant c => [(c, snd kv)]
                      | KStr _ => []
                      end) arms.

Fixpoint default_arm (arms : list (CaseKey * Result string)) : option (Result string) :=
  match arms with
  | [] => None
  | (KStr s, body) :: arms' => if s =? "default" then Some body else default_arm arms'
  | (KConstant _, _) :: arms' => default_arm arms'
  end.

Definition display_arg_text (ns : Namespace) (arg : DisplayArg) : string :=
  match arg with
  | DSignal s => get_name ns s
  | DOther text => text
  end.

Fixpoint _print_node (ns : Namespace) (at_ : AssignType) (level : nat) (node : Stmt)
         (target_filter : option Signal) {struct node} : Result string :=
  (* the Iterable branch: "".join(_print_node(...) for n in node) *)
  let fix join_nodes (level : nat) (body : list Stmt) : Result string :=
    match body with
    | [] => Ok ""
    | n :: body' =>
        r <- _print_node ns at_ level n target_filter ;;
        rs <- join_nodes level body' ;;
        Ok (r ++ rs)
    end in
  (* _print_node applied to a block, which is a list *)
  let print_block (level : nat) (body : list Stmt) : Result string :=
    if filtered_out target_filter (SList body) then Ok ""
    else join_nodes level body in
  if filtered_out target_filter node then Ok ""
  else
    match node with
    | SAssign l r =>
        assignment <- assignment_text at_ l ;;
        lt <- expr_text ns l ;;
        rt <- expr_text ns r ;;
        Ok (tabs level ++ lt ++ assignment ++ rt ++ ";" ++ nl)
    | SList body => join_nodes level body
    | SIf cond t f =>
        c <- expr_text ns cond ;;
        let r := tabs level ++ "if (" ++ c ++ ") begin" ++ nl in
        tt_ <- print_block (S level) t ;;
        let r := r ++ tt_ in
        r <- (match f with
              | [] => Ok r
              | _ :: _ =>
                  let r := r ++ tabs level ++ "end else begin" ++ nl in
                  ft <- print_block (S level) f ;;
                  Ok (r ++ ft)
              end) ;;
        Ok (r ++ tabs level ++ "end" ++ nl)
    | SCase test cases =>
        match cases with
        | [] => Ok ""
        | _ :: _ =>
            let fix arms (cs : list (CaseKey * list Stmt))
              : list (CaseKey * Result string) :=
              match cs with
              | [] => []
              | (k, v) :: cs' => (k, print_block (S (S level)) v) :: arms cs'
              end in
            c <- expr_text ns test ;;
            let r := tabs level ++ "case (" ++ c ++ ")" ++ nl in
            let css := sorted (fun x y => (case_key_value x <=? case_key_value y)%Z)
                              (constant_arms (arms cases)) in
            r <- foldR (fun r arm =>
                          choice <- expr_text ns (EConstant (fst arm)) ;;
                          let r := r ++ tabs (S level) ++ choice ++ ": begin" ++ nl in
                          body <- snd arm ;;
                          Ok (r ++ body ++ tabs (S level) ++ "end" ++ nl))
                       css r ;;
            r <- (match default_arm (arms cases) with
                  | Some body =>
                      let r := r ++ tabs (S level) ++ "default: begin" ++ nl in
                      b <- body ;;
                      Ok (r ++ b ++ tabs (S level) ++ "end" ++ nl)
                  | None => Ok r
                  end) ;;
            Ok (r ++ tabs level ++ "endcase" ++ nl)
        end
    | SDisplay s args =>
        let s := fold_left (fun s arg => s ++ ", " ++ display_arg_text ns arg)
                           args (dquote ++ s ++ dquote) in
        Ok (tabs level ++ "$display(" ++ s ++ ");" ++ nl)
    | SFinish => Ok (tabs level ++ "$finish;" ++ nl)
    | SOther type_name =>
        Raise (TypeError ("Node of unrecognized type: " ++ type_name))
    end.

End Printer.

(** ** Print Attribute *)

(** The [attr_translate] argument: a [dict], possibly of a subclass that
    overrides [__getitem__].  [dict.get] reads the stored items only; it does
    not dispatch to an overridden [__getitem__]. *)
Record AttrTranslate : Type := {
  dict_items : list (string * option (string * AttrValue));
  __getitem__ : option (string -> string * AttrValue)
}.

Fixpoint dict_lookup {V : Type} (items : list (string * V)) (k : string) : option V :=
  match items with
  | [] => None
  | (k', v) :: items' => if k' =? k then Some v else dict_lookup items' k
  end.

(** [attr_translate.get(k, None)] *)
Definition dict_get (d : AttrTranslate) (k : string) : option (string * AttrValue) :=
  match dict_lookup (dict_items d) k with
  | Some v => v
  | None => None
  end.

(** [attr_translate[k]] *)
Definition dict_getitem (d : AttrTranslate) (k : string)
  : Result (option (string * AttrValue)) :=
  match __getitem__ d with
  | Some f => Ok (Some (f k))
  | None =>
      match dict_lookup (dict_items d) k with
      | Some v => Ok v
      | None => Raise (KeyError k)
      end
  end.

(** [class DummyAttrTranslate(dict)]: an empty dict whose [__getitem__]
    returns [(k, "true")]. *)
Definition DummyAttrTranslate : AttrTranslate :=
  {| dict_items := []; __getitem__ := Some (fun k => (k, AStr "true")) |}.

(** The sort key [("", x) if isinstance(x, str) else x]. *)
Definition attr_key (x : Attr) : string * AttrValue :=
  match x with
  | AttrName name => ("", AStr name)
  | AttrTuple name value => (name, value)
  end.

Definition value_eqb (a b : AttrValue) : bool :=
  match a, b with
  | AStr x, AStr y => x =? y
  | AInt x, AInt y => (x =? y)%Z
  | _, _ => false
  end.

Definition value_lt (a b : AttrValue) : Result bool :=
  match a, b with
  | AStr x, AStr y => Ok (String.ltb x y)
  | AInt x, AInt y => Ok (x <? y)%Z
  | AStr _, AInt _ =>
      Raise (TypeError "'<' not supported between instances of 'str' and 'int'")
  | AInt _, AStr _ =>
      Raise (TypeError "'<' not supported between instances of 'int' and 'str'")
  end.

(** Tuple comparison [a < b]: the first differing component decides. *)
Definition key_lt (a b : string * AttrValue) : Result bool :=
  if negb (fst a =? fst b) then Ok (String.ltb (fst a) (fst b))
  else if negb (value_eqb (snd a) (snd b)) then value_lt (snd a) (snd b)
  else Ok false.

(** [x] goes before [y] unless [key(y) < key(x)]. *)
Definition attr_le (x y : Attr) : Result bool :=
  b <- key_lt (attr_key y) (attr_key x) ;; Ok (negb b).

Definition star : string := "*".

Definition attr_step (attr_translate : AttrTranslate) (st : string * bool) (a : Attr)
  : string * bool :=
  let '(r, firsta) := st in
  let translated :=
    match a with
    | AttrTuple attr_name attr_value => Some (attr_name, attr_value)
    | AttrName name => dict_get attr_translate name
    end in
  match translated with
  | None => (r, firsta)                       (* continue *)
  | Some (attr_name, attr_value) =>
      let r := if firsta then r else r ++ ", " in
      let const_expr := match attr_value with
                        | AStr v => dquote ++ v ++ dquote
                        | AInt n => str n
                        end in
      (r ++ attr_name ++ " = " ++ const_expr, false)
  end.

Definition _print_attribute (attr : list Attr) (attr_translate : AttrTranslate)
  : Result string :=
  attrs <- sortedR attr_le attr ;;
  let r := fst (fold_left (attr_step attr_translate) attrs ("", true)) in
  Ok (if r =? "" then r else "(" ++ star ++ " " ++ r ++ " " ++ star ++ ")").

(** ** Print Module *)

Definition is_single_assign (stmts : list Stmt) : bool :=
  match stmts with
  | [SAssign _ _] => true
  | _ => false
  end.

Section Emitters.
Context {collab : Collaborators}.

Definition _list_comb_wires (f : Fragment) : list Signal :=
  fold_left (fun r g => if is_single_assign (snd g) then sig_union r (fst g) else r)
            (group_by_targets (comb f)) [].

(** The attributes the loop writes on each port object ([type], [name],
    [direction]) are read nowhere in this file and are left out. *)
Definition _print_module (f : Fragment) (ios : list Signal) (name : string)
           (ns : Namespace) (attr_translate : AttrTranslate)
           (reg_initialization : bool) : Result string :=
  let sigs := sig_union (list_signals f) (list_special_ios f true true true) in
  let special_outs := list_special_ios f false true true in
  let inouts := list_special_ios f false false true in
  let targets := sig_union (list_targets_fragment f) special_outs in
  let wires := sig_union (_list_comb_wires f) special_outs in
  let r := "module " ++ name ++ "(" ++ nl in
  '(r, _) <- foldR (fun (st : string * bool) (sig : Signal) =>
      let '(r, firstp) := st in
      let r := if firstp then r else r ++ "," ++ nl in
      a <- _print_attribute (attr sig) attr_translate ;;
      let r := if a =? "" then r else r ++ tab ++ a in
      Ok (if sig_in sig inouts then r ++ tab ++ "inout wire " ++ _print_signal ns sig
          else if sig_in sig targets then
                 if sig_in sig wires
                 then r ++ tab ++ "output wire " ++ _print_signal ns sig
                 else r ++ tab ++ "output reg " ++ _print_signal ns sig
          else r ++ tab ++ "input wire " ++ _print_signal ns sig, false))
    (sorted by_duid ios) (r, true) ;;
  let r := r ++ nl ++ ");" ++ nl ++ nl in
  r <- foldR (fun (r : string) (sig : Signal) =>
      a <- _print_attribute (attr sig) attr_translate ;;
      let r := if a =? "" then r else r ++ a ++ " " in
      if sig_in sig wires then Ok (r ++ "wire " ++ _print_signal ns sig ++ ";" ++ nl)
      else if reg_initialization then
        rv <- expr_text ns (EConstant (reset sig)) ;;
        Ok (r ++ "reg " ++ _print_signal ns sig ++ " = " ++ rv ++ ";" ++ nl)
      else Ok (r ++ "reg " ++ _print_signal ns sig ++ ";" ++ nl))
    (sorted by_duid (sig_diff sigs ios)) r ;;
  Ok (r ++ nl).

(** ** Print Combinatorial Logic (Simulation) *)

(** [target_stmt_map[t].append(statement)] on a [defaultdict(list)]. *)
Fixpoint map_append (m : list (Signal * list Stmt)) (t : Signal) (st : Stmt)
  : list (Signal * list Stmt) :=
  match m with
  | [] => [(t, [st])]
  | (k, v) :: m' =>
      if same_signal k t then (k, (v ++ [st])%list) :: m'
      else (k, v) :: map_append m' t st
  end.

Definition syn_off : string := "// synthesis translate_off" ++ nl.
Definition syn_on : string := "// synthesis translate_on" ++ nl.

(** [Signal(name_override=...)]: a fresh 1-bit unsigned signal; [uid] is the
    next free identifier.  Migen numbers every value object when it is
    created, the signal and then the constant that wraps its reset value, so
    a new signal takes two identifiers. *)
Definition Signal_named (name : string) (uid : Z) : Signal :=
  {| duid := uid; nbits := 1; signed := false;
     reset := {| c_value := 0; c_nbits := 1; c_signed := false |};
     name_override := Some name; variable := false; attr := []; backtrace := [] |}.

(** The source returns the text; the identifier counter is threaded through
    because [Signal(...)] draws from Migen's global counter when
    [dummy_signal] is set.  The dummy signals are created after the
    namespace was built: the name [ns.get_name] answers for them is the
    namespace's business ([ns] is a parameter here). *)
Definition _print_combinatorial_logic_sim (f : Fragment) (ns : Namespace)
           (display_run dummy_signal blocking_assign : bool) (uid : Z)
  : Result (string * Z) :=
  '(r, uid) <-
    (match comb f with
     | [] => Ok ("", uid)
     | _ :: _ =>
         let dummy_s := Signal_named "dummy_s" uid in
         let '(r, uid) :=
           if dummy_signal
           then (syn_off ++ "reg " ++ _print_signal ns dummy_s ++ ";" ++ nl ++
                 "initial " ++ get_name ns dummy_s ++ " <= 1'd0;" ++ nl ++ syn_on,
                 uid + 2)
           else ("", uid) in
         let target_stmt_map :=
           fold_left (fun m statement =>
                        fold_left (fun m t => map_append m t statement)
                                  (list_targets statement) m)
                     (flat_iteration (comb f)) [] in
         '(r, uid, _) <- foldR (fun (st : string * Z * Z) (g : Signal * list Stmt) =>
             let '(r, uid, n) := st in
             let '(t, stmts) := g in
             match stmts with
             | [SAssign l v] =>
               body <- _print_node ns _AT_BLOCKING 0 (SAssign l v) None ;;
               Ok (r ++ "assign " ++ body, uid, n + 1)
             | _ =>
               let dummy_d := Signal_named "dummy_d" uid in
               let '(r, uid) :=
                 if dummy_signal
                 then (r ++ nl ++ syn_off ++ "reg " ++ _print_signal ns dummy_d ++
                       ";" ++ nl ++ syn_on, uid + 2)
                 else (r, uid) in
               let r := r ++ "always @(" ++ star ++ ") begin" ++ nl in
               let r := if display_run
                        then r ++ tab ++ "$display(" ++ dquote ++ "Running comb block #"
                               ++ str n ++ dquote ++ ");" ++ nl
                        else r in
               rv <- expr_text ns (EConstant (reset t)) ;;
               let at_ := if blocking_assign then _AT_BLOCKING else _AT_NONBLOCKING in
               let r := r ++ tab ++ get_name ns t ++
                        (if blocking_assign then " = " else " <= ") ++ rv ++ ";" ++ nl in
               body <- _print_node ns at_ 1 (SList stmts) (Some t) ;;
               let r := r ++ body in
               let r := if dummy_signal
                        then r ++ syn_off ++ tab ++ get_name ns dummy_d ++ " = " ++
                             get_name ns dummy_s ++ ";" ++ nl ++ syn_on
                        else r in
               Ok (r ++ "end" ++ nl, uid, n + 1)
             end)
           target_stmt_map (r, uid, 0) ;;
         Ok (r, uid)
     end) ;;
  Ok (r ++ nl, uid).

(** ** Print Combinatorial Logic (Synthesis) *)

Definition _print_combinatorial_logic_synth (f : Fragment) (ns : Namespace)
           (blocking_assign : bool) : Result string :=
  r <- (match comb f with
        | [] => Ok ""
        | _ :: _ =>
            foldR (fun (r : string) (g : list Signal * list Stmt) =>
                match snd g with
                | [SAssign l v] =>
                    body <- _print_node ns _AT_BLOCKING 0 (SAssign l v) None ;;
                    Ok (r ++ "assign " ++ body)
                | _ =>
                    let r := r ++ "always @(" ++ star ++ ") begin" ++ nl in
                    let at_ := if blocking_assign then _AT_BLOCKING else _AT_NONBLOCKING in
                    r <- foldR (fun (r : string) (t : Signal) =>
                           rv <- expr_text ns (EConstant (reset t)) ;;
                           Ok (r ++ tab ++ get_name ns t ++
                               (if blocking_assign then " = " else " <= ") ++
                               rv ++ ";" ++ nl))
                         (fst g) r ;;
                    body <- _print_node ns at_ 1 (SList (snd g)) None ;;
                    Ok (r ++ body ++ "end" ++ nl)
                end)
              (group_by_targets (comb f)) ""
        end) ;;
  Ok (r ++ nl).

(** ** Print Synchronous Logic *)

(** [f.clock_domains[key]] *)
Definition clock_domains_getitem (cds : list ClockDomain) (key : string)
  : Result ClockDomain :=
  match find (fun cd => cd_name cd =? key) cds with
  | Some cd => Ok cd
  | None => Raise (KeyError key)
  end.

Definition by_key {V : Type} (a b : string * V) : bool := String.leb (fst a) (fst b).

Definition _print_synchronous_logic (f : Fragment) (ns : Namespace) : Result string :=
  foldR (fun (r : string) (kv : string * list Stmt) =>
      cd <- clock_domains_getitem (clock_domains f) (fst kv) ;;
      let r := r ++ "always @(posedge " ++ get_name ns (clk cd) ++ ") begin" ++ nl in
      body <- _print_node ns _AT_SIGNAL 1 (SList (snd kv)) None ;;
      Ok (r ++ body ++ "end" ++ nl ++ nl))
    (sorted by_key (sync f)) "".

(** ** Print Specials *)

Definition by_sp_duid (a b : Special) : bool := (sp_duid a <=? sp_duid b)%Z.

Definition _print_specials (overrides : Overrides) (specials : list Special)
           (ns : Namespace) (attr_translate : AttrTranslate)
  : Result (string * list DataFile) :=
  foldR (fun (st : string * list DataFile) (special : Special) =>
      let '(r, files) := st in
      r <- (match sp_attr special with
            | Some attr =>
                a <- _print_attribute attr attr_translate ;;
                Ok (if a =? "" then r else r ++ a ++ " ")
            | None => Ok r
            end) ;;
      '(pr, fs) <- (if sp_is_memory special
                    then memory_emit_verilog special ns
                    else call_special_classmethod overrides special ns) ;;
      match pr with
      | None => Raise (NotImplementedError
                         ("Special " ++ sp_str special ++
                          " failed to implement emit_verilog"))
      | Some pr => Ok (r ++ pr, (files ++ fs)%list)
      end)
    (sorted by_sp_duid specials) ("", []).

End Emitters.

(** ** Reserved Keywords *)

Definition _ieee_1800_2017_verilog_reserved_keywords : list string := [
    "accept_on"; "alias"; "always"; "always_comb"; "always_ff"; "always_latch"; "and";
    "assert"; "assign"; "assume"; "automatic"; "before"; "begin"; "bind"; "bins";
    "binsof"; "bit"; "break"; "buf"; "bufif0"; "bufif1"; "byte"; "case"; "casex";
    "casez"; "cell"; "chandle"; "checker"; "class"; "clocking"; "cmos"; "config";
    "const"; "constraint"; "context"; "continue"; "cover"; "covergroup"; "coverpoint";
    "cross"; "deassign"; "default"; "defparam"; "design"; "disable"; "dist"; "do";
    "edge"; "else"; "end"; "endcase"; "endchecker"; "endclass"; "endclocking";
    "endconfig"; "endfunction"; "endgenerate"; "endgroup"; "endinterface"; "endmodule";
    "endpackage"; "endprimitive"; "endprogram"; "endproperty"; "endsequence";
    "endspecify"; "endtable"; "endtask"; "enum"; "event"; "eventually"; "expect";
    "export"; "extends"; "extern"; "final"; "first_match"; "for"; "force"; "foreach";
    "forever"; "fork"; "forkjoin"; "function"; "generate"; "genvar"; "global";
    "highz0"; "highz1"; "if"; "iff"; "ifnone"; "ignore_bins"; "illegal_bins";
    "implements"; "implies"; "import"; "incdir"; "include"; "initial"; "inout";
    "input"; "inside"; "instance"; "int"; "integer"; "interconnect"; "interface";
    "intersect"; "join"; "join_any"; "join_none"; "large"; "let"; "liblist"; "library";
    "local"; "localparam"; "logic"; "longint"; "macromodule"; "matches"; "medium";
    "modport"; "module"; "nand"; "negedge"; "nettype"; "new"; "nexttime"; "nmos";
    "nor"; "noshowcancelled"; "not"; "notif0"; "notif1"; "null"; "or"; "output";
    "package"; "packed"; "parameter"; "pmos"; "posedge"; "primitive"; "priority";
    "program"; "property"; "protected"; "pull0"; "pull1"; "pulldown"; "pullup";
    "pulsestyle_ondetect"; "pulsestyle_onevent"; "pure"; "rand"; "randc"; "randcase";
    "randsequence"; "rcmos"; "real"; "realtime"; "ref"; "reg"; "reject_on"; "release";
    "      repeat"; "restrict"; "return"; "rnmos"; "rpmos"; "rtran"; "rtranif0";
    "rtranif1"; "s_always"; "s_eventually"; "s_nexttime"; "s_until"; "s_until_with";
    "scalared"; "sequence"; "shortint"; "shortreal"; "showcancelled"; "signed";
    "small"; "soft"; "solve"; "specify"; "specparam"; "static"; "string"; "strong";
    "strong0"; "strong1"; "struct"; "super"; "supply0"; "supply1"; "sync_accept_on";
    "sync_reject_on"; "table"; "tagged"; "task"; "this"; "throughout"; "time";
    "timeprecision"; "timeunit"; "tran"; "tranif0"; "tranif1"; "tri"; "tri0"; "tri1";
    "triand"; "trior"; "trireg"; "type"; "typedef"; "       union"; "unique";
    "unique0"; "unsigned"; "until"; "until_with"; "untyped"; "use"; "   uwire"; "var";
    "vectored"; "virtual"; "void"; "wait"; "wait_order"; "wand"; "weak"; "weak0";
    "weak1"; "while"; "wildcard"; "wire"; "with"; "within"; "wor"; "xnor"; "xor"
].

(** ** Identifier namespace *)

Definition str_in (x : string) (l : list string) : bool := existsb (String.eqb x) l.

Fixpoint first_nonempty (trail : list (option string)) : string :=
  match trail with
  | [] => ""
  | Some n :: trail' => if n =? "" then first_nonempty trail' else n
  | None :: trail' => first_nonempty trail'
  end.

(** The name a signal asks for: its fixed name, else the first non-empty
    candidate of its debug origin trail. *)
Definition derived_name (s : Signal) : string :=
  match name_override s with
  | Some n => n
  | None => first_nonempty (backtrace s)
  end.

Fixpoint disambiguate (taken : list string) (base : string) (n : Z) (fuel : nat)
  : string :=
  match fuel with
  | O => base ++ "_" ++ str n
  | S fuel' =>
      if str_in (base ++ "_" ++ str n) taken
      then disambiguate taken base (n + 1) fuel'
      else base ++ "_" ++ str n
  end.

Definition assign_name (taken : list string) (base : string) : string :=
  if str_in base taken then disambiguate taken base 1 (List.length taken) else base.

Fixpoint name_lookup (table : list (Z * string)) (uid : Z) : option string :=
  match table with
  | [] => None
  | (k, n) :: table' => if (k =? uid)%Z then Some n else name_lookup table' uid
  end.

Fixpoint assign_names (signals : list Signal) (taken : list string)
         (table : list (Z * string)) : list (Z * string) :=
  match signals with
  | [] => table
  | s :: signals' =>
      match name_lookup table (duid s) with
      | Some _ => assign_names signals' taken table
      | None =>
          let n := assign_name taken (derived_name s) in
          assign_names signals' (n :: taken) (table ++ [(duid s, n)])%list
      end
  end.

(** Modelled from the spec: [build_namespace] is imported from
    [migen.fhdl.namer], which is not among the sources.  Following the
    namespace contract of the specification: every signal gets its derived
    name (fixed name, else first non-empty candidate of the origin trail); a
    name that is reserved or already taken gets an increasing integer suffix
    until it is free; signals are handled in creation order so the result is
    deterministic.  A signal outside the table answers with its derived
    name. *)
Definition build_namespace (signals : list Signal) (reserved_keywords : list string)
  : Namespace :=
  let table := assign_names (sorted by_duid signals) reserved_keywords [] in
  {| get_name := fun s => match name_lookup table (duid s) with
                          | Some n => n
                          | None => derived_name s
                          end;
     ns_clock_domains := [] |}.

(** ** Convert FHDL to Verilog *)

(** [ConvOutput]: the main source, the namespace and the registered files. *)
Record ConvOutput : Type := {
  main_source : string;
  ns : Namespace;
  data_files : list DataFile
}.

(** What persists between calls of [convert]: the identifier counter of
    [migen]'s objects and the set object created once for the default value
    of the [ios] parameter ([ios=set()] in the signature). *)
Record World : Type := {
  next_duid : Z;
  default_ios : list Signal
}.

(** A call's effects besides its return value: the world, the set object
    bound to [ios] (the caller's, or the default one) and the fragment object,
    both updated in place by the clock-domain loop. *)
Record Outcome : Type := {
  returned : Result ConvOutput;
  world_after : World;
  ios_after : list Signal;
  fragment_after : Fragment
}.

Fixpoint mapR {A B : Type} (g : A -> Result B) (l : list A) : Result (list B) :=
  match l with
  | [] => Ok []
  | x :: l' => y <- g x ;; ys <- mapR g l' ;; Ok (y :: ys)
  end.

(** The body of the IOs backtrace/naming loop for one port. *)
Definition name_io (io : Signal) : Result Signal :=
  match name_override io with
  | Some _ => Ok io
  | None =>
      match List.last (map Some (backtrace io)) None with
      | None => Raise IndexError
      | Some (Some io_name) =>
          if io_name =? "" then Ok io
          else Ok {| duid := duid io; nbits := nbits io; signed := signed io;
                     reset := reset io; name_override := Some io_name;
                     variable := variable io; attr := attr io;
                     backtrace := backtrace io |}
      | Some None => Ok io
      end
  end.

(** A signal object as it is after the naming loop updated the ports. *)
Definition refreshed (ios : list Signal) (s : Signal) : Signal :=
  match find (same_signal s) ios with
  | Some s' => s'
  | None => s
  end.

(** The message of the unresolved-domain exception ([missing] is the loop's
    [cd_name]). *)
Definition unresolved_message (missing : string) (cds : list ClockDomain) : string :=
  fold_left (fun msg d => msg ++ "- " ++ cd_name d ++ nl) cds
            ("Unresolved clock domain " ++ missing ++ ", availables:" ++ nl).

Section Convert.
Context {collab : Collaborators}.

(** The Verify/Create Clock Domains loop.  Its updates of [f.clock_domains]
    and of the [ios] set are in place, so they are returned also when the
    loop raises. *)
Fixpoint resolve_clock_domains (create_clock_domains : bool) (names : list string)
         (f : Fragment) (ios : list Signal) (uid : Z)
  : Result unit * (Fragment * list Signal * Z) :=
  match names with
  | [] => (Ok tt, (f, ios, uid))
  | domain :: names' =>
      match clock_domains_getitem (clock_domains f) domain with
      | Ok _ => resolve_clock_domains create_clock_domains names' f ios uid
      | Raise _ =>
          if create_clock_domains then
            match new_ClockDomain domain uid with
            | Ok (n, c, r, uid') =>
                let cd := {| cd_name := n; clk := c; rst := Some r |} in
                let f := {| comb := comb f; sync := sync f; specials := specials f;
                            clock_domains := (clock_domains f ++ [cd])%list |} in
                resolve_clock_domains create_clock_domains names' f
                                      (sig_union ios [c; r]) uid'
            | Raise e => (Raise e, (f, ios, uid))
            end
          else
            (Raise (Exception (unresolved_message domain (clock_domains f))),
             (f, ios, uid))
      end
  end.

Definition sp_in (s : Special) (l : list Special) : bool :=
  existsb (fun x => (sp_duid x =? sp_duid s)%Z) l.

(** Everything after the clock-domain loop. *)
Definition emit (f : Fragment) (ios : list Signal) (name : string)
           (special_overrides : Overrides) (attr_translate : AttrTranslate)
           (display_run reg_initialization dummy_signal blocking_assign
            regular_comb : bool) (uid : Z) : Result (ConvOutput * Z) :=
  f <- lower_complex_slices f ;;
  f <- insert_resets f ;;
  f <- lower_basics f ;;
  '(f, lowered_specials) <- lower_specials special_overrides f ;;
  f <- lower_basics f ;;
  ios <- mapR name_io (sorted by_duid ios) ;;
  let ns0 := build_namespace
               (map (refreshed ios)
                    (sig_union (sig_union (list_signals f)
                                          (list_special_ios f true true true)) ios))
               _ieee_1800_2017_verilog_reserved_keywords in
  let ns := {| get_name := get_name ns0; ns_clock_domains := clock_domains f |} in
  let verilog := generated_banner "//" in
  m <- _print_module f ios name ns attr_translate reg_initialization ;;
  let verilog := verilog ++ m in
  '(c, uid) <- (if regular_comb
                then c <- _print_combinatorial_logic_synth f ns blocking_assign ;;
                     Ok (c, uid)
                else _print_combinatorial_logic_sim f ns display_run dummy_signal
                                                    blocking_assign uid) ;;
  let verilog := verilog ++ c in
  s <- _print_synchronous_logic f ns ;;
  let verilog := verilog ++ s in
  '(sp, files) <- _print_specials special_overrides
                    (filter (fun x => negb (sp_in x lowered_specials)) (specials f))
                    ns attr_translate ;;
  let verilog := verilog ++ sp in
  let verilog := verilog ++ "endmodule" ++ nl in
  Ok ({| main_source := verilog; ns := ns; data_files := files |}, uid).

(** [convert(f, ios=set(), name="top", ...)] on an argument that already is
    a fragment.  [ios = None] is a call that leaves the parameter out, which
    binds it to the default set object. *)
Definition convert (w : World) (f : Fragment) (ios : option (list Signal))
           (name : string) (special_overrides : Overrides)
           (attr_translate : AttrTranslate)
           (create_clock_domains display_run reg_initialization dummy_signal
            blocking_assign regular_comb : bool) : Outcome :=
  let ios0 := match ios with Some s => s | None => default_ios w end in
  let '(res, (f1, ios1, uid1)) :=
    resolve_clock_domains create_clock_domains
                          (sorted String.leb (list_clock_domains f)) f ios0
                          (next_duid w) in
  let shared := match ios with Some _ => default_ios w | None => ios1 end in
  match res with
  | Raise e =>
      {| returned := Raise e;
         world_after := {| next_duid := uid1; default_ios := shared |};
         ios_after := ios1; fragment_after := f1 |}
  | Ok _ =>
      match emit f1 ios1 name special_overrides attr_translate display_run
                 reg_initialization dummy_signal blocking_assign regular_comb uid1 with
      | Ok (out, uid2) =>
          {| returned := Ok out;
             world_after := {| next_duid := uid2; default_ios := shared |};
             ios_after := ios1; fragment_after := f1 |}
      | Raise e =>
          {| returned := Raise e;
             world_after := {| next_duid := uid1; default_ios := shared |};
             ios_after := ios1; fragment_after := f1 |}
      end
  end.

End Convert.

(** ** A reference instance of the consumed interfaces

    A small model of the Migen helpers for fragments that are already in
    lowered form and have no structural primitives: the lowering passes leave
    such a fragment as it is.  It is used to run the printer on concrete
    fragments. *)

Module Reference.

Fixpoint target_signals (e : Expr) : list Signal :=
  match e with
  | ESignal s => [s]
  | ESlice v _ _ => target_signals v
  | ECat l => (fix go (l : list Expr) : list Signal :=
                 match l with
                 | [] => []
                 | v :: l' => sig_union (target_signals v) (go l')
                 end) l
  | _ => []
  end.

Fixpoint expr_signals (e : Expr) : list Signal :=
  let fix go (l : list Expr) : list Signal :=
    match l with
    | [] => []
    | v :: l' => sig_union (expr_signals v) (go l')
    end in
  match e with
  | ESignal s => [s]
  | EOperator _ operands => go operands
  | ESlice v _ _ => expr_signals v
  | ECat l => go l
  | EReplicate v _ => expr_signals v
  | _ => []
  end.

Fixpoint stmt_targets (node : Stmt) : list Signal :=
  let fix go (l : list Stmt) : list Signal :=
    match l with
    | [] => []
    | n :: l' => sig_union (stmt_targets n) (go l')
    end in
  match node with
  | SAssign l _ => target_signals l
  | SList body => go body
  | SIf _ t f => sig_union (go t) (go f)
  | SCase _ cases =>
      (fix arms (cs : list (CaseKey * list Stmt)) : list Signal :=
         match cs with
         | [] => []
         | (_, v) :: cs' => sig_union (go v) (arms cs')
         end) cases
  | _ => []
  end.

Fixpoint stmt_signals (node : Stmt) : list Signal :=
  let fix go (l : list Stmt) : list Signal :=
    match l with
    | [] => []
    | n :: l' => sig_union (stmt_signals n) (go l')
    end in
  match node with
  | SAssign l r => sig_union (expr_signals l) (expr_signals r)
  | SList body => go body
  | SIf c t f => sig_union (expr_signals c) (sig_union (go t) (go f))
  | SCase c cases =>
      sig_union (expr_signals c)
        ((fix arms (cs : list (CaseKey * list Stmt)) : list Signal :=
            match cs with
            | [] => []
            | (_, v) :: cs' => sig_union (go v) (arms cs')
            end) cases)
  | SDisplay _ args =>
      flat_map (fun a => match a with DSignal s => [s] | DOther _ => [] end) args
  | _ => []
  end.

Definition all_statements (f : Fragment) : list Stmt :=
  (comb f ++ flat_map (fun kv => snd kv) (sync f))%list.

Fixpoint flatten (l : list Stmt) : list Stmt :=
  match l with
  | [] => []
  | SList body :: l' => (body ++ flatten l')%list
  | n :: l' => n :: flatten l'
  end.

Definition overlaps (a b : list Signal) : bool := existsb (fun s => sig_in s b) a.

(** One statement joins the groups it shares a target with. *)
Definition add_to_groups (groups : list (list Signal * list Stmt)) (st : Stmt)
  : list (list Signal * list Stmt) :=
  let t := stmt_targets st in
  let hit := filter (fun g => overlaps (fst g) t) groups in
  let miss := filter (fun g => negb (overlaps (fst g) t)) groups in
  (miss ++ [(fold_left (fun acc g => sig_union (fst g) acc) hit t,
             (flat_map (fun g => snd g) hit ++ [st])%list)])%list.

Fixpoint dedup (l : list string) : list string :=
  match l with
  | [] => []
  | x :: l' => if str_in x l' then dedup l' else x :: dedup l'
  end.

Definition variable_of (e : Expr) : Result bool :=
  match e with
  | ESignal s => Ok (variable s)
  | ESlice (ESignal s) _ _ => Ok (variable s)
  | _ => Raise (TypeError "is_variable")
  end.

(** [ClockDomain(name)] as Migen builds it: a leading [cd_] is dropped from
    the requested name, and the clock and reset signals are two new signals
    named after the domain.  (Migen also refuses a name that starts with a
    digit; the fragments below use none.) *)
Definition domain_name (name : string) : string :=
  if String.prefix "cd_" name
  then String.substring 3 (String.length name - 3) name
  else name.

Definition ClockDomain_of (name : string) (uid : Z) : string * Signal * Signal * Z :=
  let n := domain_name name in
  (n, Signal_named (n ++ "_clk") uid, Signal_named (n ++ "_rst") (uid + 2), uid + 4).

#[export] Instance collaborators : Collaborators := {|
  Overrides := unit;
  list_targets := stmt_targets;
  list_targets_fragment := fun f => stmt_targets (SList (all_statements f));
  list_signals := fun f => stmt_signals (SList (all_statements f));
  list_special_ios := fun _ _ _ _ => [];
  list_clock_domains := fun f =>
    dedup (map fst (sync f) ++ map cd_name (clock_domains f))%list;
  group_by_targets := fun sl => fold_left add_to_groups (flatten sl) [];
  flat_iteration := flatten;
  is_variable := variable_of;
  new_ClockDomain := fun name uid => Ok (ClockDomain_of name uid);
  lower_complex_slices := fun f => Ok f;
  insert_resets := fun f => Ok f;
  lower_basics := fun f => Ok f;
  lower_specials := fun _ f => Ok (f, []);
  call_special_classmethod := fun _ _ _ => Ok (None, []);
  memory_emit_verilog := fun _ _ => Ok (None, []);
  generated_banner := fun c => c ++ " Auto-generated by LiteX" ++ nl
|}.

Definition plain_ns : Namespace :=
  {| get_name := derived_name; ns_clock_domains := [] |}.

Definition Signal_of (name : string) (uid width : Z) (sgn var : bool) : Signal :=
  {| duid := uid; nbits := width; signed := sgn;
     reset := {| c_value := 0; c_nbits := width; c_signed := sgn |};
     name_override := Some name; variable := var; attr := []; backtrace := [] |}.

Definition Fragment_of (c : list Stmt) (s : list (string * list Stmt))
           (cds : list ClockDomain) : Fragment :=
  {| comb := c; sync := s; specials := []; clock_domains := cds |}.

Definition fresh_world : World := {| next_duid := 1000; default_ios := [] |}.

End Reference.

(** * The shapes the properties are stated with *)

(** The constant of the same width and signedness holding the absolute value. *)
Definition magnitude (c : Constant) : Constant :=
  {| c_value := Z.abs (c_value c); c_nbits := c_nbits c; c_signed := c_signed c |}.

(** Opening minus closing parentheses of a text. *)
Fixpoint paren_excess (s : string) : Z :=
  match s with
  | EmptyString => 0
  | String c s' =>
      (if Ascii.eqb c "(" then 1 else if Ascii.eqb c ")" then -1 else 0)
      + paren_excess s'
  end.

(** The [j]-th disambiguated form of a name. *)
Definition candidate (base : string) (j : Z) : string := base ++ "_" ++ str j.


(** Invariant of the naming loop. *)
Definition names_inv (reserved taken : list string) (table : list (Z * string)) : Prop :=
  incl reserved taken
  /\ incl (map snd table) taken
  /\ NoDup (map snd table)
  /\ (forall n, In n (map snd table) -> ~ In n reserved).


Section Shapes.
Context {collab : Collaborators}.
Variable ns0 : Namespace.

(** The output of the synthesis strategy for one group. *)
Definition continuous_assignment (l v : Expr) : Result string :=
  lt <- expr_text ns0 l ;;
  rt <- expr_text ns0 v ;;
  Ok ("assign " ++ lt ++ " = " ++ rt ++ ";" ++ nl).

Definition default_assignment (blocking_assign : bool) (t : Signal) : string :=
  tab ++ get_name ns0 t ++ (if blocking_assign then " = " else " <= ")
      ++ fst (_print_constant (reset t)) ++ ";" ++ nl.

Definition level_sensitive_block (blocking_assign : bool) (targets : list Signal)
           (stmts : list Stmt) : Result string :=
  body <- mapR (fun n => _print_node ns0 (if blocking_assign then _AT_BLOCKING
                                          else _AT_NONBLOCKING) 1 n None) stmts ;;
  Ok ("always @(" ++ star ++ ") begin" ++ nl
      ++ cat (map (default_assignment blocking_assign) targets)
      ++ cat body
      ++ "end" ++ nl).

Definition emit_group (blocking_assign : bool) (g : list Signal * list Stmt)
  : Result string :=
  match snd g with
  | [SAssign l v] => continuous_assignment l v
  | stmts => level_sensitive_block blocking_assign (fst g) stmts
  end.




End Shapes.

(** The entries of the module header. *)
Section ModuleShapes.
Context {collab : Collaborators}.
Variables (f : Fragment) (ns0 : Namespace) (attr_translate : AttrTranslate).

Definition module_wires : list Signal :=
  sig_union (_list_comb_wires f) (list_special_ios f false true true).

(** The direction and kind keywords of a port. *)
Definition port_kind (sig : Signal) : string :=
  if sig_in sig (list_special_ios f false false true) then "inout wire "
  else if sig_in sig (sig_union (list_targets_fragment f)
                                (list_special_ios f false true true))
       then if sig_in sig module_wires then "output wire " else "output reg "
  else "input wire ".

(** One entry of the port list. *)
Definition port_line (sig : Signal) : Result string :=
  a <- _print_attribute (attr sig) attr_translate ;;
  Ok ((if a =? "" then "" else tab ++ a) ++ tab ++ port_kind sig
      ++ _print_signal ns0 sig).

(** One declaration of an internal signal. *)
Definition declaration (reg_initialization : bool) (sig : Signal) : Result string :=
  a <- _print_attribute (attr sig) attr_translate ;;
  Ok ((if a =? "" then "" else a ++ " ")
      ++ (if sig_in sig module_wires
          then "wire " ++ _print_signal ns0 sig ++ ";" ++ nl
          else if reg_initialization
               then "reg " ++ _print_signal ns0 sig ++ " = "
                    ++ fst (_print_constant (reset sig)) ++ ";" ++ nl
               else "reg " ++ _print_signal ns0 sig ++ ";" ++ nl)).

End ModuleShapes.

(** [k] names a domain of the registry. *)
Definition registered (cds : list ClockDomain) (k : string) : bool :=
  existsb (fun cd => cd_name cd =? k) cds.

(** One line of the exception's list of domains. *)
Definition listed (d : ClockDomain) : string := "- " ++ cd_name d ++ nl.

(** The first of [names] that the registry lacks. *)
Definition first_unregistered (cds : list ClockDomain) (names : list string)
  : option string :=
  find (fun d => negb (registered cds d)) names.

(** The domain the loop appends for what [ClockDomain(name)] returned. *)
Definition built (n : string) (c r : Signal) : ClockDomain :=
  {| cd_name := n; clk := c; rst := Some r |}.

(** A domain whose clock and reset signals are both in the set [ios]. *)
Definition exposed (ios : list Signal) (cd : ClockDomain) : Prop :=
  exists r, rst cd = Some r /\ sig_in (clk cd) ios = true /\ sig_in r ios = true.

(** [needle in hay] for two texts. *)
Fixpoint occurs (needle hay : string) {struct hay} : bool :=
  if String.prefix needle hay then true
  else match hay with
       | EmptyString => false
       | String _ hay' => occurs needle hay'
       end.

(** Concrete fragments and calls. *)

Module Scenario.
Import Reference.

Definition a : Signal := Signal_of "a" 1 8 false false.
Definition v : Signal := Signal_of "v" 3 8 false true.
Definition one : Constant := {| c_value := 1; c_nbits := 8; c_signed := false |}.



(** A fragment with no logic at all, and one whose synchronous mapping
    names the domain [sys] while its registry is empty. *)
Definition idle : Fragment := Fragment_of [] [] [].
Definition clocked : Fragment :=
  Fragment_of [] [("sys", [SAssign (ESignal a) (EConstant one)])] [].

(** Two synchronous blocks whose domains [pll] and [adc] are both missing
    from the registry, and one block of a domain named [cd_x]. *)
Definition two_missing : Fragment :=
  Fragment_of [] [("pll", [SAssign (ESignal a) (EConstant one)]);
                  ("adc", [SAssign (ESignal a) (EConstant one)])] [].
Definition prefixed : Fragment :=
  Fragment_of [] [("cd_x", [SAssign (ESignal a) (EConstant one)])] [].

(** [convert(f)]: every parameter but the fragment left at its default. *)
Definition run (w : World) (f : Fragment) : Outcome :=
  convert w f None "top" tt DummyAttrTranslate true false true true false true.

Definition text (o : Outcome) : option string :=
  match returned o with
  | Ok c => Some (main_source c)
  | Raise _ => None
  end.

End Scenario.

(** ** Shapes of the further properties *)

(** The expressions the renderer accepts. *)
Fixpoint wf_expr (e : Expr) : bool :=
  match e with
  | EConstant _ => true
  | ESignal _ => true
  | EOperator operator operands =>
      match operands with
      | [o1] => wf_expr o1
      | [o1; o2] => wf_expr o1 && wf_expr o2
      | [o1; o2; o3] => (operator =? "m") && (wf_expr o1 && (wf_expr o2 && wf_expr o3))
      | _ => false
      end
  | ESlice value start stop =>
      (stop - start >=? 1)%Z
      && ((if is_1bit_signal value then (start =? 0)%Z else true) && wf_expr value)
  | ECat l => forallb wf_expr l
  | EReplicate v _ => wf_expr v
  | EOther _ => false
  end.

(** The signedness of an expression, read off its structure. *)
Fixpoint expr_signed (e : Expr) : bool :=
  match e with
  | EConstant c => c_signed c
  | ESignal s => signed s
  | EOperator operator operands =>
      match operands with
      | [o1] => if operator =? "-" then true else expr_signed o1
      | [o1; o2] => expr_signed o1 || expr_signed o2
      | [_; o2; o3] => expr_signed o2 || expr_signed o3
      | _ => false
      end
  | ESlice value _ _ => expr_signed value
  | ECat _ => false
  | EReplicate _ _ => false
  | EOther _ => false
  end.

(** The exceptions the expression renderer raises itself. *)
Definition renderer_exception (x : Exn) : Prop :=
  x = AssertionError
  \/ exists t, x = TypeError ("Expression of unrecognized type: '" ++ t ++ "'").

(** What a rendering attempt says about the expression. *)
Definition accepted (ns0 : Namespace) (e : Expr) : Prop :=
  match _print_expression ns0 e with
  | Ok (_, s) => wf_expr e = true /\ s = expr_signed e
  | Raise x => wf_expr e = false /\ renderer_exception x
  end.

Section CaseShapes.
Context {collab : Collaborators}.
Variables (ns0 : Namespace) (at_ : AssignType) (level : nat).

Definition by_case_value (x y : Constant * Result string) : bool :=
  (case_key_value x <=? case_key_value y)%Z.

(** The arms of a multiway branch with their bodies rendered. *)
Definition rendered_arms (target_filter : option Signal)
           (cases : list (CaseKey * list Stmt)) : list (CaseKey * Result string) :=
  map (fun kv => (fst kv, _print_node ns0 at_ (S (S level)) (SList (snd kv))
                                      target_filter)) cases.

Definition case_arm (arm : Constant * Result string) : Result string :=
  body <- snd arm ;;
  Ok (tabs (S level) ++ fst (_print_constant (fst arm)) ++ ": begin" ++ nl
      ++ body ++ tabs (S level) ++ "end" ++ nl).

Definition case_default (arms : list (CaseKey * Result string)) : Result string :=
  match default_arm arms with
  | Some body =>
      b <- body ;;
      Ok (tabs (S level) ++ "default: begin" ++ nl ++ b ++ tabs (S level) ++ "end" ++ nl)
  | None => Ok ""
  end.

Definition case_text (test : Expr) (arms : list (CaseKey * Result string))
  : Result string :=
  c <- expr_text ns0 test ;;
  texts <- mapR case_arm (sorted by_case_value (constant_arms arms)) ;;
  d <- case_default arms ;;
  Ok (tabs level ++ "case (" ++ c ++ ")" ++ nl ++ cat texts ++ d
      ++ tabs level ++ "endcase" ++ nl).

End CaseShapes.

(** The identity of a key of the [cases] dict. *)
Definition key_tag (k : CaseKey) : Z + string :=
  match k with
  | KConstant c => inl (c_value c)
  | KStr s => inr s
  end.

(** What one attribute contributes to the annotation: nothing, or
    [name = value]. *)
Definition attr_entry (attr_translate : AttrTranslate) (a : Attr) : list string :=
  match (match a with
         | AttrTuple attr_name attr_value => Some (attr_name, attr_value)
         | AttrName name => dict_get attr_translate name
         end) with
  | None => []
  | Some (attr_name, attr_value) =>
      [attr_name ++ " = " ++ match attr_value with
                             | AStr v => dquote ++ v ++ dquote
                             | AInt n => str n
                             end]
  end.

Definition is_nil {A} (l : list A) : bool :=
  match l with [] => true | _ :: _ => false end.

Definition string_valued (a : Attr) : Prop :=
  match a with
  | AttrName _ => True
  | AttrTuple _ (AStr _) => True
  | AttrTuple _ (AInt _) => False
  end.

(** [target_stmt_map[t]], the empty list when [t] is no key. *)
Fixpoint map_get (m : list (Signal * list Stmt)) (t : Signal) : list Stmt :=
  match m with
  | [] => []
  | (k, v) :: m' => if same_signal k t then v else map_get m' t
  end.

Definition map_keys (m : list (Signal * list Stmt)) : list Signal := map fst m.

Section TargetMap.
Context {collab : Collaborators}.

(** The map the simulation strategy builds from the flattened statements. *)
Definition target_stmt_map (stmts : list Stmt) : list (Signal * list Stmt) :=
  fold_left (fun m statement =>
               fold_left (fun m t => map_append m t statement)
                         (list_targets statement) m)
            stmts [].

Definition writes (t : Signal) (statement : Stmt) : bool :=
  sig_in t (list_targets statement).

End TargetMap.

(** Keys of the map are pairwise distinct objects, and every key holds a
    non-empty list. *)
Definition map_ok (m : list (Signal * list Stmt)) : Prop :=
  NoDup (map duid (map_keys m)) /\ Forall (fun g => snd g <> []) m.

(** [enumerate(l)] counting from [n]. *)
Fixpoint enumerate {A} (n : Z) (l : list A) : list (Z * A) :=
  match l with
  | [] => []
  | x :: l' => (n, x) :: enumerate (n + 1) l'
  end.

Section SimShapes.
Context {collab : Collaborators}.
Variables (ns0 : Namespace) (display_run blocking_assign : bool).

(** What the simulation strategy emits for the [n]-th target when no dummy
    signal is asked for. *)
Definition sim_group (p : Z * (Signal * list Stmt)) : Result string :=
  let '(n, (t, stmts)) := p in
  match stmts with
  | [SAssign l v] => continuous_assignment ns0 l v
  | _ =>
      body <- _print_node ns0 (if blocking_assign then _AT_BLOCKING else _AT_NONBLOCKING)
                          1 (SList stmts) (Some t) ;;
      Ok ("always @(" ++ star ++ ") begin" ++ nl
          ++ (if display_run
              then tab ++ "$display(" ++ dquote ++ "Running comb block #" ++ str n
                       ++ dquote ++ ");" ++ nl
              else "")
          ++ default_assignment ns0 blocking_assign t
          ++ body ++ "end" ++ nl)
  end.

End SimShapes.

(** The arms of a multiway branch that are rendered. *)
Definition rendered_key (k : CaseKey) : bool :=
  match k with
  | KConstant _ => true
  | KStr s => s =? "default"
  end.

(** The statements the renderer accepts in a blocking or non-blocking
    context. *)
Fixpoint wf_stmt (node : Stmt) : bool :=
  let fix all (body : list Stmt) : bool :=
    match body with
    | [] => true
    | n :: body' => wf_stmt n && all body'
    end in
  match node with
  | SAssign l r => wf_expr l && wf_expr r
  | SList body => all body
  | SIf cond t f => wf_expr cond && (all t && all f)
  | SCase test cases =>
      match cases with
      | [] => true
      | _ :: _ =>
          wf_expr test
          && (fix arms (cs : list (CaseKey * list Stmt)) : bool :=
                match cs with
                | [] => true
                | (k, v) :: cs' => (negb (rendered_key k) || all v) && arms cs'
                end) cases
      end
  | SDisplay _ _ => true
  | SFinish => true
  | SOther _ => false
  end.

Section StatementShapes.
Context {collab : Collaborators}.

(** A failure means an ill-formed statement. *)
Definition stmt_accepted (ns0 : Namespace) (blocking_assign : bool) (node : Stmt)
  : Prop :=
  forall level,
    match _print_node ns0 (if blocking_assign then _AT_BLOCKING else _AT_NONBLOCKING)
                      level node None with
    | Ok _ => True
    | Raise x => wf_stmt node = false
    end.

End StatementShapes.

Section SpecialShapes.
Context {collab : Collaborators}.

(** What one structural primitive contributes: its text and the files its
    emitter registered. *)
Definition special_chunk (overrides : Overrides) (ns0 : Namespace)
           (attr_translate : AttrTranslate) (special : Special)
  : Result (string * list DataFile) :=
  prefix <- (match sp_attr special with
             | Some attr =>
                 a <- _print_attribute attr attr_translate ;;
                 Ok (if a =? "" then "" else a ++ " ")
             | None => Ok ""
             end) ;;
  '(pr, fs) <- (if sp_is_memory special
                then memory_emit_verilog special ns0
                else call_special_classmethod overrides special ns0) ;;
  match pr with
  | None => Raise (NotImplementedError
                     ("Special " ++ sp_str special ++ " failed to implement emit_verilog"))
  | Some pr => Ok (prefix ++ pr, fs)
  end.

End SpecialShapes.

(** More concrete values. *)

Module Samples.
Import Reference.

Definition b : Signal := Signal_of "b" 2 8 true false.
Definition o : Signal := Signal_of "o" 4 1 false false.
Definition two : Constant := {| c_value := 2; c_nbits := 8; c_signed := false |}.

(** A port named by its origin trail only. *)
Definition unnamed : Signal :=
  {| duid := 7; nbits := 1; signed := false;
     reset := {| c_value := 0; c_nbits := 1; c_signed := false |};
     name_override := None; variable := false; attr := [];
     backtrace := [None; Some "clk_in"] |}.

Definition named : Signal :=
  {| duid := 7; nbits := 1; signed := false;
     reset := {| c_value := 0; c_nbits := 1; c_signed := false |};
     name_override := Some "clk_in"; variable := false; attr := [];
     backtrace := [None; Some "clk_in"] |}.

(** One continuous assignment and one conditional assignment. *)
Definition mixed_comb : list Stmt :=
  [SAssign (ESignal o) (ESignal Scenario.a);
   SIf (ESignal o) [SAssign (ESignal Scenario.v) (ESignal b)] []].

Definition mixed : Fragment := Fragment_of mixed_comb [] [].

Definition arms_21 : list (CaseKey * list Stmt) :=
  [(KConstant two, [SFinish]); (KConstant Scenario.one, [SFinish])].

Definition arms_12 : list (CaseKey * list Stmt) :=
  [(KConstant Scenario.one, [SFinish]); (KConstant two, [SFinish])].

End Samples.

(** * Properties of the printer *)

(** ** Strings and the error monad *)

Lemma append_assoc (a b c : string) : (a ++ b) ++ c = a ++ (b ++ c).
Proof.
  induction a as [|x a IH]; simpl; [reflexivity | now rewrite IH].
Qed.

Lemma append_nil_r (a : string) : a ++ "" = a.
Proof.
  induction a as [|x a IH]; simpl; [reflexivity | now rewrite IH].
Qed.

(** Normalise nested appends to the right. *)
Ltac reassoc := repeat (first [rewrite append_assoc | progress simpl]).

Lemma cat_app (l1 l2 : list string) : cat (l1 ++ l2)%list = cat l1 ++ cat l2.
Proof.
  induction l1 as [|x l1 IH]; simpl; [reflexivity |].
  now rewrite IH, append_assoc.
Qed.

Lemma Ok_pair_inv {A B} (a c : A) (b d : B) :
  Ok (a, b) = Ok (c, d) -> a = c /\ b = d.
Proof. intros H. split; congruence. Qed.

Lemma bind_Ok {A B} (a : A) (k : A -> Result B) : Py.bind (Ok a) k = k a.
Proof. reflexivity. Qed.

Lemma bind_ret {A} (m : Result A) : Py.bind m Ok = m.
Proof. now destruct m. Qed.

Lemma bind_assoc {A B C} (m : Result A) (k : A -> Result B) (h : B -> Result C) :
  Py.bind (Py.bind m k) h = Py.bind m (fun a => Py.bind (k a) h).
Proof. now destruct m. Qed.

Lemma bind_ext {A B} (m : Result A) (k k' : A -> Result B) :
  (forall a, k a = k' a) -> Py.bind m k = Py.bind m k'.
Proof. intros H. destruct m; simpl; auto. Qed.

(** A loop that appends one chunk per element is the concatenation of the
    chunks; the first failing element decides the exception either way. *)
Lemma foldR_chunks {A} (chunk : A -> Result string) (l : list A) (r0 : string) :
  foldR (fun r x => c <- chunk x ;; Ok (r ++ c)) l r0
  = (cs <- mapR chunk l ;; Ok (r0 ++ cat cs)).
Proof.
  revert r0. induction l as [|x l IH]; intros r0; simpl.
  - now rewrite append_nil_r.
  - destruct (chunk x) as [c|e]; simpl; [|reflexivity].
    rewrite IH. destruct (mapR chunk l) as [cs|e]; simpl; [|reflexivity].
    now rewrite append_assoc.
Qed.

Lemma foldR_ext {A S} (step step' : S -> A -> Result S) (l : list A) (s : S) :
  (forall s x, step s x = step' s x) -> foldR step l s = foldR step' l s.
Proof.
  intros H. revert s. induction l as [|x l IH]; intros s; simpl; [reflexivity|].
  rewrite H. apply bind_ext. auto.
Qed.

Lemma mapR_pure {A B} (g : A -> B) (l : list A) :
  mapR (fun x => Ok (g x)) l = Ok (map g l).
Proof.
  induction l as [|x l IH]; simpl; [reflexivity | now rewrite IH].
Qed.

(** ** Constants *)


(** C8.  A constant renders as [<sign><width>'d<magnitude>]: the literal
    carries the explicit bit width, the sign field is a minus for a negative
    value and empty otherwise, what follows the minus is the literal of the
    absolute value, and the returned flag is the constant's signed flag. *)
Theorem print_constant_literal (ns0 : Namespace) (c : Constant) :
  _print_expression ns0 (EConstant c) = Ok (_print_constant c)
  /\ fst (_print_constant (magnitude c))
     = str (c_nbits c) ++ "'d" ++ str (Z.abs (c_value c))
  /\ fst (_print_constant c)
     = (if (c_value c <? 0)%Z then "-" else "") ++ fst (_print_constant (magnitude c))
  /\ snd (_print_constant c) = c_signed c.
Proof.
  repeat split.
  - unfold _print_constant, magnitude; simpl.
    rewrite Z.abs_idemp.
    destruct (Z.geb_spec (Z.abs (c_value c)) 0) as [_|H]; [reflexivity|].
    pose proof (Z.abs_nonneg (c_value c)); lia.
  - unfold _print_constant, magnitude; simpl.
    rewrite Z.abs_idemp.
    destruct (Z.geb_spec (Z.abs (c_value c)) 0) as [_|H];
      [|pose proof (Z.abs_nonneg (c_value c)); lia].
    destruct (Z.geb_spec (c_value c) 0), (Z.ltb_spec (c_value c) 0);
      try lia; reflexivity.
Qed.

(** ** Slices *)

(** C7.  For a slice with [stop - start >= 1]: over a 1-bit signal the bare
    name is emitted when [start = 0] (any other start fails the assertion);
    over any other value a width of exactly 1 gives [[start]] and a larger
    width gives [[stop-1:start]]. *)
Theorem print_slice_range (ns0 : Namespace) (value : Expr) (start stop : Z)
        (Hwidth : stop - start >= 1) :
  (forall s, value = ESignal s -> nbits s = 1 ->
     _print_slice ns0 value start stop
     = if (start =? 0)%Z then Ok (get_name ns0 s, signed s) else Raise AssertionError)
  /\ (is_1bit_signal value = false -> stop - start = 1 ->
      forall r sg, _print_expression ns0 value = Ok (r, sg) ->
        _print_slice ns0 value start stop = Ok (r ++ "[" ++ str start ++ "]", sg))
  /\ (is_1bit_signal value = false -> stop - start > 1 ->
      forall r sg, _print_expression ns0 value = Ok (r, sg) ->
        _print_slice ns0 value start stop
        = Ok (r ++ "[" ++ str (stop - 1) ++ ":" ++ str start ++ "]", sg)).
Proof.
  assert (Hw : (stop - start >=? 1)%Z = true) by (apply Z.geb_le; lia).
  unfold _print_slice. repeat split.
  - intros s -> Hs. simpl. rewrite Hw. simpl.
    apply Z.eqb_eq in Hs. rewrite Hs.
    destruct (start =? 0)%Z; simpl; [now rewrite append_nil_r | reflexivity].
  - intros H1 H r sg Hr. simpl. rewrite Hw, H1, Hr. simpl.
    destruct (Z.gtb_spec (stop - start) 1); [lia | reflexivity].
  - intros H1 H r sg Hr. simpl. rewrite Hw, H1, Hr. simpl.
    destruct (Z.gtb_spec (stop - start) 1); [reflexivity | lia].
Qed.

Lemma print_slice_range_witness :
  _print_slice Reference.plain_ns
               (ESignal (Reference.Signal_of "a" 1 8 false false)) 3 4
  = Ok ("a[3]", false).
Proof.
  refine (proj1 (proj2 (print_slice_range Reference.plain_ns
            (ESignal (Reference.Signal_of "a" 1 8 false false)) 3 4 _))
            _ _ "a" false _).
  - lia.
  - reflexivity.
  - reflexivity.
  - reflexivity.
Defined.

(** ** Operators *)

Lemma paren_excess_app (a b : string) :
  paren_excess (a ++ b) = paren_excess a + paren_excess b.
Proof.
  induction a as [|c a IH]; simpl; [reflexivity | rewrite IH; lia].
Qed.

Lemma paren_excess_to_signed (r : string) :
  paren_excess (to_signed r) = paren_excess r - 1.
Proof.
  unfold to_signed. rewrite !paren_excess_app.
  change (paren_excess "$signed({1'd0 ") with 1.
  change (paren_excess "}))") with (-2). lia.
Qed.

Lemma is_shift_spec (operator : string) :
  is_shift operator = true <-> operator = "<<<" \/ operator = ">>>".
Proof.
  unfold is_shift. rewrite orb_true_iff, !String.eqb_eq. tauto.
Qed.

(** C3.  With both operands rendered as [(r1, s1)] and [(r2, s2)]: the two
    shifts combine the operand texts unchanged, and the result is flagged
    signed exactly when one of the operands is.  For any other operator the
    operand that is unsigned while the other is signed is replaced by the
    text [$signed({1'd0 r}))]: no comma after the zero bit, and one closing
    parenthesis more than it opens, so that the text of a mixed-sign
    operation closes one parenthesis more than its parts account for. *)
Theorem print_binary_operator (ns0 : Namespace) (operator : string) (e1 e2 : Expr)
        (r1 r2 : string) (s1 s2 : bool)
        (H1 : _print_expression ns0 e1 = Ok (r1, s1))
        (H2 : _print_expression ns0 e2 = Ok (r2, s2)) :
  (operator <> "<<<" -> operator <> ">>>" ->
     _print_operator ns0 operator [e1; e2]
     = Ok ("(" ++ (if s2 && negb s1 then "$signed({1'd0 " ++ r1 ++ "}))" else r1)
               ++ " " ++ operator ++ " "
               ++ (if s1 && negb s2 then "$signed({1'd0 " ++ r2 ++ "}))" else r2)
               ++ ")",
           s1 || s2))
  /\ (operator = "<<<" \/ operator = ">>>" ->
      _print_operator ns0 operator [e1; e2]
      = Ok ("(" ++ r1 ++ " " ++ operator ++ " " ++ r2 ++ ")", s1 || s2))
  /\ (forall r s, _print_operator ns0 operator [e1; e2] = Ok (r, s) ->
      (s = true <-> s1 = true \/ s2 = true))
  /\ (operator <> "<<<" -> operator <> ">>>" -> s1 <> s2 ->
      forall r s, _print_operator ns0 operator [e1; e2] = Ok (r, s) ->
      paren_excess r = paren_excess r1 + paren_excess operator + paren_excess r2 - 1).
Proof.
  assert (Hshift : operator <> "<<<" -> operator <> ">>>" -> is_shift operator = false).
  { intros Ha Hb. destruct (is_shift operator) eqn:E; [|reflexivity].
    apply is_shift_spec in E. tauto. }
  assert (Htext : operator <> "<<<" -> operator <> ">>>" ->
            _print_operator ns0 operator [e1; e2]
            = Ok ("(" ++ (if s2 && negb s1 then "$signed({1'd0 " ++ r1 ++ "}))" else r1)
                      ++ " " ++ operator ++ " "
                      ++ (if s1 && negb s2 then "$signed({1'd0 " ++ r2 ++ "}))" else r2)
                      ++ ")",
                  s1 || s2)).
  { intros Ha Hb. unfold _print_operator. simpl. rewrite H1, H2. simpl.
    rewrite (Hshift Ha Hb). simpl. unfold to_signed.
    destruct (s2 && negb s1), (s1 && negb s2); now reassoc. }
  split; [exact Htext|]. split; [|split].
  - intros Hs. apply is_shift_spec in Hs.
    unfold _print_operator. simpl. rewrite H1, H2. simpl. rewrite Hs. simpl.
    now reassoc.
  - unfold _print_operator. simpl. rewrite H1, H2. simpl.
    intros r s H. inversion H. apply orb_true_iff.
  - intros Ha Hb Hne r s H. rewrite (Htext Ha Hb) in H.
    apply Ok_pair_inv in H as [<- _].
    destruct s1, s2; try congruence; cbn [andb negb];
      rewrite !paren_excess_app;
      change (paren_excess "$signed({1'd0 ") with 1;
      change (paren_excess "}))") with (-2);
      change (paren_excess "(") with 1; change (paren_excess ")") with (-1);
      change (paren_excess " ") with 0; lia.
Qed.

Lemma print_binary_operator_witness :
  _print_operator Reference.plain_ns "+"
    [ESignal (Reference.Signal_of "a" 1 8 false false);
     ESignal (Reference.Signal_of "b" 2 8 true false)]
  = Ok ("($signed({1'd0 a})) + b)", true).
Proof.
  refine (proj1 (print_binary_operator Reference.plain_ns "+"
            (ESignal (Reference.Signal_of "a" 1 8 false false))
            (ESignal (Reference.Signal_of "b" 2 8 true false))
            "a" "b" false true _ _) _ _).
  - reflexivity.
  - reflexivity.
  - discriminate.
  - discriminate.
Defined.

(** Unary operators: negation flags the result signed and wraps an unsigned
    operand with [to_signed]; any other operator keeps the operand's flag. *)
Lemma print_unary_operator (ns0 : Namespace) (operator : string) (e : Expr)
      (r : string) (s : bool) :
  _print_expression ns0 e = Ok (r, s) ->
  _print_operator ns0 operator [e]
  = if operator =? "-"
    then Ok ("(-" ++ (if s then r else to_signed r) ++ ")", true)
    else Ok ("(" ++ operator ++ r ++ ")", s).
Proof.
  intros H. unfold _print_operator. simpl. rewrite H. simpl.
  destruct (operator =? "-"); [reflexivity | now reassoc].
Qed.


(** C4.  Negating an operand rendered unsigned as [r] emits
    [(-$signed({1'd0 r})))] with the flag signed: the wrapper has no comma
    between the zero bit and the operand, and it closes one parenthesis more
    than it opens, so the wrapped text is not a well-formed concatenation. *)
Theorem print_negation_unsigned (ns0 : Namespace) (e : Expr) (r : string)
        (H : _print_expression ns0 e = Ok (r, false)) :
  _print_operator ns0 "-" [e] = Ok ("(-" ++ to_signed r ++ ")", true)
  /\ to_signed r = "$signed({1'd0 " ++ r ++ "}))"
  /\ paren_excess (to_signed r) = paren_excess r - 1
  /\ paren_excess ("(-" ++ to_signed r ++ ")") = paren_excess r - 1.
Proof.
  repeat split.
  - now rewrite (print_unary_operator ns0 "-" e r false H).
  - apply paren_excess_to_signed.
  - rewrite !paren_excess_app, paren_excess_to_signed.
    change (paren_excess "(-") with 1. change (paren_excess ")") with (-1). lia.
Qed.

Lemma print_negation_unsigned_witness :
  _print_operator Reference.plain_ns "-"
    [ESignal (Reference.Signal_of "a" 1 8 false false)]
  = Ok ("(-$signed({1'd0 a})))", true).
Proof.
  exact (proj1 (print_negation_unsigned Reference.plain_ns
                  (ESignal (Reference.Signal_of "a" 1 8 false false)) "a"
                  eq_refl)).
Defined.

(** ** Statement blocks *)

Section Blocks.
Context {collab : Collaborators}.

(** Without a target filter, a list of statements renders as the
    concatenation of its statements' renderings, in order. *)
Lemma print_node_list (ns0 : Namespace) (at_ : AssignType) (level : nat)
      (body : list Stmt) :
  _print_node ns0 at_ level (SList body) None
  = (rs <- mapR (fun n => _print_node ns0 at_ level n None) body ;; Ok (cat rs)).
Proof.
  induction body as [|n body IH]; [reflexivity|].
  simpl in *. destruct (_print_node ns0 at_ level n None) as [r|e]; simpl;
    [|reflexivity].
  rewrite IH.
  destruct (mapR (fun n0 => _print_node ns0 at_ level n0 None) body); reflexivity.
Qed.

(** An assignment outside any filter: the mode picks the operator. *)
Lemma print_node_assign (ns0 : Namespace) (at_ : AssignType) (level : nat)
      (l r : Expr) :
  _print_node ns0 at_ level (SAssign l r) None
  = (assignment <- assignment_text at_ l ;;
     lt <- expr_text ns0 l ;;
     rt <- expr_text ns0 r ;;
     Ok (tabs level ++ lt ++ assignment ++ rt ++ ";" ++ nl)).
Proof. reflexivity. Qed.

Lemma expr_text_constant (ns0 : Namespace) (c : Constant) :
  expr_text ns0 (EConstant c) = Ok (fst (_print_constant c)).
Proof. reflexivity. Qed.

End Blocks.

(** ** Combinational logic, synthesis strategy *)

Section Synthesis.
Context {collab : Collaborators}.
Variable ns0 : Namespace.
Variable blocking_assign : bool.


Lemma defaults_loop (targets : list Signal) (r0 : string) :
  foldR (fun (r : string) (t : Signal) =>
           rv <- expr_text ns0 (EConstant (reset t)) ;;
           Ok (r ++ tab ++ get_name ns0 t ++
               (if blocking_assign then " = " else " <= ") ++ rv ++ ";" ++ nl))
        targets r0
  = Ok (r0 ++ cat (map (default_assignment ns0 blocking_assign) targets)).
Proof.
  revert r0. induction targets as [|t targets IH]; intros r0.
  - simpl. now rewrite append_nil_r.
  - cbn [foldR map cat]. rewrite expr_text_constant, bind_Ok, bind_Ok, IH.
    unfold default_assignment. f_equal. now rewrite !append_assoc.
Qed.

Lemma block_step (r : string) (targets : list Signal) (stmts : list Stmt) :
  (r1 <- foldR (fun (r : string) (t : Signal) =>
                  rv <- expr_text ns0 (EConstant (reset t)) ;;
                  Ok (r ++ tab ++ get_name ns0 t ++
                      (if blocking_assign then " = " else " <= ") ++ rv ++ ";" ++ nl))
               targets (r ++ "always @(" ++ star ++ ") begin" ++ nl) ;;
   body <- _print_node ns0 (if blocking_assign then _AT_BLOCKING else _AT_NONBLOCKING)
                       1 (SList stmts) None ;;
   Ok (r1 ++ body ++ "end" ++ nl))
  = (c <- level_sensitive_block ns0 blocking_assign targets stmts ;; Ok (r ++ c)).
Proof.
  rewrite defaults_loop, bind_Ok, print_node_list.
  unfold level_sensitive_block.
  destruct (mapR _ stmts) as [body|e]; simpl; [|reflexivity].
  f_equal. now rewrite !append_assoc.
Qed.

Lemma assign_step (r : string) (l v : Expr) :
  (body <- _print_node ns0 _AT_BLOCKING 0 (SAssign l v) None ;;
   Ok (r ++ "assign " ++ body))
  = (c <- continuous_assignment ns0 l v ;; Ok (r ++ c)).
Proof.
  rewrite print_node_assign. unfold continuous_assignment. simpl.
  destruct (expr_text ns0 l) as [lt|e]; simpl; [|reflexivity].
  destruct (expr_text ns0 v) as [rt|e]; reflexivity.
Qed.

(** C2.  The synthesis strategy emits one chunk per group, in group order:
    a group that is exactly one assignment becomes the continuous
    assignment [assign l = v;] with no block around it; any other group
    becomes an [always @( * )] block holding first one reset-value assignment
    per target of the group and then the group's statements in their
    order. *)
Theorem print_combinatorial_logic_synth_groups (f : Fragment) :
  _print_combinatorial_logic_synth f ns0 blocking_assign
  = match comb f with
    | [] => Ok nl
    | _ :: _ =>
        chunks <- mapR (emit_group ns0 blocking_assign) (group_by_targets (comb f)) ;;
        Ok (cat chunks ++ nl)
    end
  /\ (forall targets l v,
        emit_group ns0 blocking_assign (targets, [SAssign l v])
        = continuous_assignment ns0 l v)
  /\ (forall targets stmts,
        is_single_assign stmts = false ->
        emit_group ns0 blocking_assign (targets, stmts)
        = level_sensitive_block ns0 blocking_assign targets stmts).
Proof.
  split; [|split].
  - unfold _print_combinatorial_logic_synth.
    destruct (comb f) as [|s0 c0]; [reflexivity|].
    rewrite (foldR_ext _ (fun r g => c <- emit_group ns0 blocking_assign g ;;
                                      Ok (r ++ c))).
    + rewrite foldR_chunks, bind_assoc. apply bind_ext. reflexivity.
    + intros r g. unfold emit_group.
      destruct (snd g) as [|s [|s' stmts]];
        try destruct s; first [apply assign_step | apply block_step].
  - reflexivity.
  - intros targets stmts H. unfold emit_group. simpl.
    destruct stmts as [|s [|s' stmts]]; try destruct s;
      solve [reflexivity | discriminate H].
Qed.

End Synthesis.

(** ** [sorted] *)

Section SortedFacts.
Context {A : Type} (le : A -> A -> bool).
Hypothesis le_total : forall x y, le x y = true \/ le y x = true.

Let R (x y : A) : Prop := le x y = true.

Lemma insert_by_perm (x : A) (l : list A) :
  Permutation (x :: l) (insert_by le x l).
Proof.
  induction l as [|y l IH]; simpl; [apply Permutation_refl|].
  destruct (le x y); [apply Permutation_refl|].
  eapply perm_trans; [apply perm_swap|]. now apply perm_skip.
Qed.

Lemma sorted_perm (l : list A) : Permutation l (sorted le l).
Proof.
  induction l as [|x l IH]; simpl; [constructor|].
  eapply perm_trans; [apply perm_skip, IH | apply insert_by_perm].
Qed.

Lemma insert_by_HdRel (a x : A) (l : list A) :
  R a x -> HdRel R a l -> HdRel R a (insert_by le x l).
Proof.
  intros Hax Hl. destruct l as [|y l]; simpl; [now constructor|].
  destruct (le x y); constructor; [assumption|].
  now inversion Hl.
Qed.

Lemma insert_by_Sorted (x : A) (l : list A) :
  Sorted R l -> Sorted R (insert_by le x l).
Proof.
  induction l as [|y l IH]; intros Hs; simpl.
  - repeat constructor.
  - destruct (le x y) eqn:E.
    + constructor; [assumption | now constructor].
    + inversion Hs as [|? ? Hs' Hhd]; subst.
      constructor; [now apply IH|].
      apply insert_by_HdRel; [|assumption].
      destruct (le_total x y) as [H|H]; [congruence | exact H].
Qed.

Lemma sorted_Sorted (l : list A) : Sorted R (sorted le l).
Proof.
  induction l as [|x l IH]; simpl; [constructor | now apply insert_by_Sorted].
Qed.

End SortedFacts.

(** ** Synchronous logic *)

Section Sequential.
Context {collab : Collaborators}.
Variable ns0 : Namespace.




End Sequential.

(** ** Attributes *)

Lemma attr_le_names (x y : string) :
  exists b, attr_le (AttrName x) (AttrName y) = Ok b.
Proof.
  unfold attr_le, key_lt. simpl.
  destruct (y =? x); simpl; eauto.
Qed.

Lemma insert_byR_names (x : string) (l : list string) :
  exists l', insert_byR attr_le (AttrName x) (map AttrName l) = Ok (map AttrName l').
Proof.
  induction l as [|y l [l' IH]]; simpl.
  - now exists [x].
  - destruct (attr_le_names x y) as [b ->]. simpl. destruct b.
    + now exists (x :: y :: l).
    + rewrite IH. simpl. now exists (y :: l').
Qed.

Lemma sortedR_names (l : list string) :
  exists l', sortedR attr_le (map AttrName l) = Ok (map AttrName l').
Proof.
  induction l as [|x l [l' IH]]; simpl.
  - now exists [].
  - rewrite IH. simpl. apply insert_byR_names.
Qed.

Lemma attr_step_default_name (st : string * bool) (k : string) :
  attr_step DummyAttrTranslate st (AttrName k) = st.
Proof. now destruct st. Qed.

Lemma fold_default_names (l : list string) (st : string * bool) :
  fold_left (attr_step DummyAttrTranslate) (map AttrName l) st = st.
Proof.
  revert st. induction l as [|k l IH]; intros st; simpl; [reflexivity|].
  now rewrite attr_step_default_name.
Qed.

(** C10.  Under the default translator every string-named attribute is
    dropped: [_print_attribute] asks [get], which reads the stored items of
    the (empty) dict, while the pair [(name, "true")] is what only
    [__getitem__] returns.  So a set of string-named attributes yields no
    annotation at all. *)
Theorem print_attribute_default_translator (names : list string) :
  _print_attribute (map AttrName names) DummyAttrTranslate = Ok ""
  /\ (forall k, dict_get DummyAttrTranslate k = None)
  /\ (forall k, dict_getitem DummyAttrTranslate k = Ok (Some (k, AStr "true")))
  /\ _print_attribute [AttrName "keep"] DummyAttrTranslate = Ok "".
Proof.
  split; [|repeat split].
  unfold _print_attribute.
  destruct (sortedR_names names) as [l' ->]. simpl.
  now rewrite fold_default_names.
Qed.

(** ** Reserved keywords and the namespace *)

Lemma to_int_proper (z : Z) :
  Z.to_int z <> Decimal.Pos Decimal.Nil /\ Z.to_int z <> Decimal.Neg Decimal.Nil.
Proof.
  destruct z; simpl; split; intros [=H]; now apply Unsigned.to_uint_nonnil in H.
Qed.

Lemma str_inj (a b : Z) : str a = str b -> a = b.
Proof.
  unfold str. intros H. apply DecimalZ.to_int_inj.
  assert (E : NilZero.int_of_string (NilZero.string_of_int (Z.to_int a))
              = NilZero.int_of_string (NilZero.string_of_int (Z.to_int b)))
    by now rewrite H.
  rewrite !NilZero.isi in E by apply to_int_proper. congruence.
Qed.

Lemma append_inv_head (a x y : string) : a ++ x = a ++ y -> x = y.
Proof.
  induction a as [|c a IH]; simpl; [auto|]. intros [=H]. auto.
Qed.

Lemma candidate_inj (base : string) (i j : Z) :
  candidate base i = candidate base j -> i = j.
Proof.
  unfold candidate. intros H. apply append_inv_head in H.
  simpl in H. injection H as H. now apply str_inj.
Qed.

Lemma candidate_not_base (base : string) (j : Z) : candidate base j <> base.
Proof.
  unfold candidate. intros H. rewrite <- (append_nil_r base) in H at 2.
  apply append_inv_head in H. discriminate H.
Qed.

Lemma str_in_In (x : string) (l : list string) : str_in x l = true <-> In x l.
Proof.
  unfold str_in. rewrite existsb_exists. split.
  - intros [y [Hy E]]. apply String.eqb_eq in E. now subst.
  - intros H. exists x. split; [assumption | apply String.eqb_refl].
Qed.

Lemma disambiguate_spec (taken : list string) (base : string) (fuel : nat) :
  forall n,
  exists m, n <= m <= n + Z.of_nat fuel
            /\ disambiguate taken base n fuel = candidate base m
            /\ (forall j, n <= j < m -> In (candidate base j) taken)
            /\ (m < n + Z.of_nat fuel -> ~ In (candidate base m) taken).
Proof.
  induction fuel as [|fuel IH]; intros n.
  - exists n. simpl. split; [lia|]. split; [reflexivity|]. split; intros; lia.
  - cbn [disambiguate]. fold (candidate base n).
    destruct (str_in (candidate base n) taken) eqn:E.
    + destruct (IH (n + 1)) as (m & Hm & Hd & Hall & Hfresh).
      exists m. split; [lia|]. split; [exact Hd|]. split.
      * intros j Hj. destruct (Z.eq_dec j n) as [->|Hne].
        -- now apply str_in_In.
        -- apply Hall. lia.
      * intros Hlt. apply Hfresh. lia.
    + exists n. split; [lia|]. split; [reflexivity|]. split.
      * intros j Hj. lia.
      * intros _ H. apply str_in_In in H. congruence.
Qed.

Lemma assign_name_fresh (taken : list string) (base : string) :
  ~ In (assign_name taken base) taken.
Proof.
  unfold assign_name. destruct (str_in base taken) eqn:E.
  - destruct (disambiguate_spec taken base (List.length taken) 1)
      as (m & Hm & -> & Hall & Hfresh).
    destruct (Z.eq_dec m (1 + Z.of_nat (List.length taken))) as [->|Hne];
      [|apply Hfresh; lia].
    exfalso.
    set (L := base :: map (fun i => candidate base (Z.of_nat i))
                          (seq 1 (List.length taken))).
    assert (HL : NoDup L).
    { constructor.
      - intros H. apply in_map_iff in H as [i [Hi _]].
        now apply candidate_not_base in Hi.
      - apply NoDup_map_NoDup_ForallPairs; [|apply seq_NoDup].
        intros i j _ _ H. apply candidate_inj in H. lia. }
    assert (Hincl : incl L taken).
    { intros x [<-|H]; [now apply str_in_In|].
      apply in_map_iff in H as [i [<- Hi]]. apply in_seq in Hi.
      apply Hall. lia. }
    pose proof (NoDup_incl_length HL Hincl) as Hlen.
    unfold L in Hlen. simpl in Hlen. rewrite length_map, length_seq in Hlen. lia.
  - intros H. apply str_in_In in H. congruence.
Qed.

Lemma name_lookup_Some (table : list (Z * string)) (k : Z) (n : string) :
  name_lookup table k = Some n -> In (k, n) table.
Proof.
  induction table as [|[k' n'] table IH]; simpl; [discriminate|].
  destruct (Z.eqb_spec k' k) as [->|Hne].
  - intros [= ->]. now left.
  - intros H. right. now apply IH.
Qed.

Lemma name_lookup_app (table extra : list (Z * string)) (k : Z) (n : string) :
  name_lookup table k = Some n -> name_lookup (table ++ extra) k = Some n.
Proof.
  induction table as [|[k' n'] table IH]; simpl; [discriminate|].
  destruct (k' =? k)%Z; auto.
Qed.

Lemma name_lookup_last (table : list (Z * string)) (k : Z) (n : string) :
  name_lookup table k = None -> name_lookup (table ++ [(k, n)]) k = Some n.
Proof.
  induction table as [|[k' n'] table IH]; simpl.
  - now rewrite Z.eqb_refl.
  - destruct (k' =? k)%Z; [discriminate | auto].
Qed.

Lemma assign_names_spec (reserved : list string) (signals : list Signal) :
  forall taken table,
    names_inv reserved taken table ->
    let final := assign_names signals taken table in
    (exists taken', names_inv reserved taken' final)
    /\ (forall k n, name_lookup table k = Some n -> name_lookup final k = Some n)
    /\ (forall s, In s signals -> exists n, name_lookup final (duid s) = Some n).
Proof.
  induction signals as [|s signals IH]; intros taken table Hinv; simpl.
  - split; [eauto|]. split; [auto|]. intros s [].
  - destruct (name_lookup table (duid s)) as [n0|] eqn:E.
    + destruct (IH taken table Hinv) as (Ht & Hk & Hs).
      split; [exact Ht|]. split; [exact Hk|].
      intros s' [<-|Hin]; [eauto | now apply Hs].
    + set (n := assign_name taken (derived_name s)).
      assert (Hfresh : ~ In n taken) by apply assign_name_fresh.
      destruct Hinv as (Hr & Hi & Hn & Hd).
      assert (Hinv' : names_inv reserved (n :: taken) (table ++ [(duid s, n)])).
      { unfold names_inv. rewrite map_app. simpl. repeat split.
        - intros x Hx. right. now apply Hr.
        - intros x Hx. apply in_app_or in Hx as [Hx|[<-|[]]];
            [right; now apply Hi | now left].
        - apply NoDup_app; [assumption | repeat constructor; intros [] |].
          intros x Hx [<-|[]]. apply Hfresh. now apply Hi.
        - intros x Hx Hres. apply in_app_or in Hx as [Hx|[<-|[]]].
          + now apply (Hd x).
          + apply Hfresh. now apply Hr. }
      destruct (IH _ _ Hinv') as (Ht & Hk & Hs).
      split; [exact Ht|]. split.
      * intros k m Hkm. apply Hk. now apply name_lookup_app.
      * intros s' [<-|Hin]; [|now apply Hs].
        exists n. apply Hk. now apply name_lookup_last.
Qed.

Lemma NoDup_snd_key (table : list (Z * string)) (a b : Z) (n : string) :
  NoDup (map snd table) -> In (a, n) table -> In (b, n) table -> a = b.
Proof.
  induction table as [|[k m] table IH]; simpl; [intros _ []|].
  intros Hn Ha Hb. inversion Hn as [|? ? Hnot Hn']; subst.
  destruct Ha as [Ha|Ha], Hb as [Hb|Hb].
  - congruence.
  - inversion Ha; subst. exfalso. apply Hnot. apply in_map_iff. now exists (b, n).
  - inversion Hb; subst. exfalso. apply Hnot. apply in_map_iff. now exists (a, n).
  - now apply IH.
Qed.

(** The namespace of the specification keeps its contract for whatever
    reserved set it is handed: the names of the signals it was built from
    avoid that set and are pairwise distinct. *)
Lemma build_namespace_contract (signals : list Signal) (reserved : list string) :
  (forall s, In s signals ->
     ~ In (get_name (build_namespace signals reserved) s) reserved)
  /\ (forall s1 s2, In s1 signals -> In s2 signals -> duid s1 <> duid s2 ->
        get_name (build_namespace signals reserved) s1
        <> get_name (build_namespace signals reserved) s2).
Proof.
  assert (Hinv : names_inv reserved reserved []).
  { unfold names_inv. simpl. repeat split; auto using incl_refl.
    - intros x [].
    - constructor. }
  destruct (assign_names_spec reserved (sorted by_duid signals) reserved [] Hinv)
    as ((taken' & _ & _ & Hn & Hd) & _ & Hs).
  assert (Hin : forall s, In s signals ->
            exists n, name_lookup (assign_names (sorted by_duid signals) reserved [])
                                  (duid s) = Some n).
  { intros s H. apply Hs. eapply Permutation_in; [apply sorted_perm | exact H]. }
  split.
  - intros s H. simpl. destruct (Hin s H) as [n E]. rewrite E.
    apply Hd. apply in_map_iff. exists (duid s, n). split; [reflexivity|].
    now apply name_lookup_Some.
  - intros s1 s2 H1 H2 Hne. simpl.
    destruct (Hin s1 H1) as [n1 E1]. destruct (Hin s2 H2) as [n2 E2].
    rewrite E1, E2. intros <-. apply Hne.
    apply (NoDup_snd_key _ _ _ n1 Hn); now apply name_lookup_Some.
Qed.

(** C5.  The keyword set holds the entries for [repeat], [union] and [uwire]
    with leading blanks, so these three IEEE 1800-2017 keywords are not
    members of it, and a signal named so keeps the keyword as its name. *)
Theorem reserved_keywords_with_blanks :
  str_in "repeat" _ieee_1800_2017_verilog_reserved_keywords = false
  /\ str_in "union" _ieee_1800_2017_verilog_reserved_keywords = false
  /\ str_in "uwire" _ieee_1800_2017_verilog_reserved_keywords = false
  /\ str_in "      repeat" _ieee_1800_2017_verilog_reserved_keywords = true
  /\ str_in "       union" _ieee_1800_2017_verilog_reserved_keywords = true
  /\ str_in "   uwire" _ieee_1800_2017_verilog_reserved_keywords = true
  /\ (let s := Reference.Signal_of "repeat" 1 1 false false in
      get_name (build_namespace [s] _ieee_1800_2017_verilog_reserved_keywords) s
      = "repeat")
  /\ (let s := Reference.Signal_of "union" 1 1 false false in
      get_name (build_namespace [s] _ieee_1800_2017_verilog_reserved_keywords) s
      = "union")
  /\ (let s := Reference.Signal_of "uwire" 1 1 false false in
      get_name (build_namespace [s] _ieee_1800_2017_verilog_reserved_keywords) s
      = "uwire")
  /\ (let s := Reference.Signal_of "always" 1 1 false false in
      get_name (build_namespace [s] _ieee_1800_2017_verilog_reserved_keywords) s
      = "always_1").
Proof.
  repeat split; vm_compute; reflexivity.
Qed.

(** ** Clock-domain resolution *)


Lemma listing_loop (cds : list ClockDomain) (msg : string) :
  fold_left (fun msg d => msg ++ "- " ++ cd_name d ++ nl) cds msg
  = msg ++ cat (map listed cds).
Proof.
  revert msg. induction cds as [|d cds IH]; intros msg; simpl.
  - now rewrite append_nil_r.
  - rewrite IH. unfold listed. now reassoc.
Qed.

Lemma unresolved_message_lines (missing : string) (cds : list ClockDomain) :
  unresolved_message missing cds
  = "Unresolved clock domain " ++ missing ++ ", availables:" ++ nl
    ++ cat (map listed cds).
Proof.
  unfold unresolved_message. rewrite listing_loop. now reassoc.
Qed.

Lemma sig_in_union_l (s : Signal) (a b : list Signal) :
  sig_in s a = true -> sig_in s (sig_union a b) = true.
Proof.
  revert a. induction b as [|x b IH]; intros a H; simpl; [assumption|].
  destruct (sig_in x a); apply IH; [assumption|].
  unfold sig_in in *. rewrite existsb_app, H. reflexivity.
Qed.

Lemma same_signal_refl (s : Signal) : same_signal s s = true.
Proof. apply Z.eqb_refl. Qed.

Lemma same_signal_trans (a b c : Signal) :
  same_signal a b = true -> same_signal b c = true -> same_signal a c = true.
Proof. unfold same_signal. rewrite !Z.eqb_eq. congruence. Qed.

Lemma sig_in_same (x y : Signal) (l : list Signal) :
  same_signal x y = true -> sig_in y l = true -> sig_in x l = true.
Proof.
  unfold sig_in. intros Hxy H. apply existsb_exists in H as [z [Hz Hyz]].
  apply existsb_exists. exists z. split; [assumption|].
  eapply same_signal_trans; eassumption.
Qed.

Lemma sig_in_union_r (s : Signal) (a b : list Signal) :
  sig_in s b = true -> sig_in s (sig_union a b) = true.
Proof.
  revert a. induction b as [|x b IH]; intros a H; simpl in *; [discriminate|].
  apply orb_true_iff in H as [H|H].
  - destruct (sig_in x a) eqn:E; apply sig_in_union_l.
    + eapply sig_in_same; eassumption.
    + unfold sig_in. rewrite existsb_app. simpl. rewrite H.
      now rewrite orb_true_r.
  - destruct (sig_in x a); now apply IH.
Qed.

Section Resolution.
Context {collab : Collaborators}.

Lemma getitem_unregistered (cds : list ClockDomain) (k : string) :
  registered cds k = false -> clock_domains_getitem cds k = Raise (KeyError k).
Proof.
  unfold registered, clock_domains_getitem. intros H.
  destruct (find _ cds) as [cd|] eqn:E; [|reflexivity].
  apply find_some in E as [Hin Hk].
  assert (existsb (fun cd => cd_name cd =? k) cds = true)
    by (apply existsb_exists; eauto).
  congruence.
Qed.

Lemma getitem_registered (cds : list ClockDomain) (k : string) :
  registered cds k = true -> exists cd, clock_domains_getitem cds k = Ok cd.
Proof.
  unfold registered, clock_domains_getitem. intros H.
  destruct (find _ cds) as [cd|] eqn:E; [eauto|].
  apply existsb_exists in H as [cd [Hin Hk]].
  apply (find_none _ _ E) in Hin. congruence.
Qed.

Lemma first_unregistered_exists (cds : list ClockDomain) (names : list string)
      (k : string) :
  In k names -> registered cds k = false ->
  exists missing, first_unregistered cds names = Some missing.
Proof.
  intros Hin Hk. unfold first_unregistered.
  destruct (find _ names) as [m|] eqn:E; [eauto|].
  apply (find_none _ _ E) in Hin. rewrite Hk in Hin. discriminate.
Qed.

Lemma first_unregistered_spec (cds : list ClockDomain) (names : list string)
      (missing : string) :
  first_unregistered cds names = Some missing ->
  In missing names /\ registered cds missing = false.
Proof.
  unfold first_unregistered. intros H. apply find_some in H as [Hin Hr].
  split; [assumption|]. now apply negb_true_iff.
Qed.

Lemma registered_app (cds extra : list ClockDomain) (k : string) :
  registered (cds ++ extra) k = registered cds k || registered extra k.
Proof. unfold registered. apply existsb_app. Qed.

(** With auto-creation off, the loop stops at the first name (in the
    order it visits them) that the registry lacks, having changed
    nothing. *)
Lemma resolve_raises (names : list string) (f : Fragment) (ios : list Signal)
      (uid : Z) (missing : string) :
  first_unregistered (clock_domains f) names = Some missing ->
  resolve_clock_domains false names f ios uid
  = (Raise (Exception (unresolved_message missing (clock_domains f))),
     (f, ios, uid)).
Proof.
  unfold first_unregistered.
  induction names as [|d names IH]; intros H; [discriminate|].
  cbn [find] in H. cbn [resolve_clock_domains].
  destruct (registered (clock_domains f) d) eqn:Hd; cbn [negb] in H.
  - destruct (getitem_registered _ _ Hd) as [cd ->]. now apply IH.
  - rewrite (getitem_unregistered _ _ Hd). now injection H as <-.
Qed.

(** With auto-creation on, whatever [ClockDomain] does: the loop only
    appends to the registry and only adds to [ios]; every domain it appended
    has its clock and reset signals in [ios]; the first name the registry
    lacked is the first one [ClockDomain] is called with, at the identifier
    counter the loop started from; and every visited name is registered in
    the end unless [ClockDomain] gave its domain another name or raised. *)
Lemma resolve_creates (names : list string) :
  forall (f : Fragment) (ios : list Signal) (uid : Z),
  exists res f' ios' uid' created,
    resolve_clock_domains true names f ios uid = (res, (f', ios', uid'))
    /\ comb f' = comb f /\ sync f' = sync f /\ specials f' = specials f
    /\ clock_domains f' = (clock_domains f ++ created)%list
    /\ (forall s, sig_in s ios = true -> sig_in s ios' = true)
    /\ Forall (exposed ios') created
    /\ (forall missing,
          first_unregistered (clock_domains f) names = Some missing ->
          match new_ClockDomain missing uid with
          | Ok (n, c, r, _) => exists rest, created = built n c r :: rest
          | Raise e => res = Raise e /\ created = []
          end)
    /\ (forall k, In k names ->
          registered (clock_domains f') k = true
          \/ (exists u n c r u',
                 new_ClockDomain k u = Ok (n, c, r, u') /\ n <> k
                 /\ In (built n c r) created)
          \/ (exists d u e,
                 In d names /\ new_ClockDomain d u = Raise e /\ res = Raise e)).
Proof.
  induction names as [|d names IH]; intros f ios uid.
  - exists (Ok tt), f, ios, uid, []. cbn [resolve_clock_domains].
    rewrite app_nil_r. repeat split; auto. discriminate.
  - cbn [resolve_clock_domains].
    destruct (registered (clock_domains f) d) eqn:Hd.
    + destruct (getitem_registered _ _ Hd) as [cd0 ->].
      destruct (IH f ios uid)
        as (res & f' & ios' & uid' & created & He & Hc & Hs & Hp & Hr & Hi & Hx & Hm & Hk).
      exists res, f', ios', uid', created. rewrite He.
      split; [reflexivity|]. do 6 (split; [assumption|]). split.
      * intros missing Hf. apply Hm. unfold first_unregistered in *.
        cbn [find] in Hf. now rewrite Hd in Hf.
      * intros k [<-|Hin].
        -- left. rewrite Hr, registered_app, Hd. reflexivity.
        -- destruct (Hk k Hin) as [H|[H|(d' & u & e & Hd' & Hn & Hres)]]; auto.
           right. right. exists d', u, e. repeat split; auto. now right.
    + rewrite (getitem_unregistered _ _ Hd).
      destruct (new_ClockDomain d uid) as [[[[n c] r] uid1]|e] eqn:En.
      * set (f1 := {| comb := comb f; sync := sync f; specials := specials f;
                      clock_domains := (clock_domains f ++ [built n c r])%list |}).
        destruct (IH f1 (sig_union ios [c; r]) uid1)
          as (res & f' & ios' & uid' & created & He & Hc & Hs & Hp & Hr & Hi & Hx
              & Hm & Hk).
        exists res, f', ios', uid', (built n c r :: created).
        fold (built n c r). fold f1. rewrite He.
        split; [reflexivity|]. split; [exact Hc|]. split; [exact Hs|].
        split; [exact Hp|]. split.
        { rewrite Hr. cbn [clock_domains f1]. now rewrite <- app_assoc. }
        split.
        { intros s Hin. apply Hi. now apply sig_in_union_l. }
        split.
        { constructor; [|exact Hx]. exists r. split; [reflexivity|].
          split; apply Hi; apply sig_in_union_r; cbn [sig_in existsb clk built];
            rewrite same_signal_refl; [reflexivity | apply orb_true_r]. }
        split.
        { intros missing Hf. unfold first_unregistered in Hf. cbn [find] in Hf.
          rewrite Hd in Hf. cbn [negb] in Hf. injection Hf as <-.
          rewrite En. now exists created. }
        intros k [<-|Hin].
        -- destruct (String.eqb_spec n d) as [->|Hne].
           ++ left. rewrite Hr. cbn [clock_domains f1].
              rewrite !registered_app. unfold registered at 2.
              cbn [existsb built cd_name]. rewrite String.eqb_refl.
              now rewrite orb_true_r.
           ++ right. left. exists uid, n, c, r, uid1. repeat split; auto. now left.
        -- destruct (Hk k Hin) as [H|[(u & n' & c' & r' & u' & Hn & Hne & Hb)
                                     |(d' & u & e & Hd' & Hn & Hres)]].
           ++ now left.
           ++ right. left. exists u, n', c', r', u'. repeat split; auto. now right.
           ++ right. right. exists d', u, e. repeat split; auto. now right.
      * exists (Raise e), f, ios, uid, []. rewrite app_nil_r.
        do 5 (split; [reflexivity|]). split; [auto|]. split; [constructor|]. split.
        { intros missing Hf. unfold first_unregistered in Hf. cbn [find] in Hf.
          rewrite Hd in Hf. cbn [negb] in Hf. injection Hf as <-.
          rewrite En. auto. }
        intros k Hin. right. right. exists d, uid, e. repeat split; auto. now left.
Qed.

End Resolution.

(** ** Module structure *)

Lemma join_cons (sep c : string) (cs : list string) :
  join sep (c :: cs) = c ++ cat (map (append sep) cs).
Proof.
  revert c. induction cs as [|d cs IH]; intros c.
  - simpl. now rewrite append_nil_r.
  - change (join sep (c :: d :: cs)) with (c ++ sep ++ join sep (d :: cs)).
    rewrite IH. cbn [map cat]. now rewrite append_assoc.
Qed.

(** A loop that separates its chunks with [sep], tracking with a flag
    whether it is at the first one. *)
Lemma foldR_separated {A} (chunk : A -> Result string) (sep : string) (l : list A) :
  forall r0,
    foldR (fun (st : string * bool) x =>
             c <- chunk x ;;
             Ok ((if snd st then fst st else fst st ++ sep) ++ c, false))
          l (r0, false)
    = (cs <- mapR chunk l ;; Ok (r0 ++ cat (map (append sep) cs), false)).
Proof.
  induction l as [|x l IH]; intros r0; simpl.
  - now rewrite append_nil_r.
  - destruct (chunk x) as [c|e]; simpl; [|reflexivity].
    rewrite IH. destruct (mapR chunk l) as [cs|e]; simpl; [|reflexivity].
    now rewrite !append_assoc.
Qed.

Lemma foldR_joined {A} (chunk : A -> Result string) (sep : string) (l : list A)
      (r0 : string) :
  Py.bind (foldR (fun (st : string * bool) x =>
                    c <- chunk x ;;
                    Ok ((if snd st then fst st else fst st ++ sep) ++ c, false))
                 l (r0, true))
          (fun st => Ok (fst st))
  = (cs <- mapR chunk l ;; Ok (r0 ++ join sep cs)).
Proof.
  destruct l as [|x l].
  - simpl. now rewrite append_nil_r.
  - cbn [foldR mapR fst snd]. destruct (chunk x) as [c|e]; [|reflexivity].
    cbn [Py.bind]. rewrite foldR_separated.
    destruct (mapR chunk l) as [cs|e]; [|reflexivity].
    cbn [Py.bind fst]. now rewrite join_cons, append_assoc.
Qed.

Section ModuleFacts.
Context {collab : Collaborators}.

(** The module header is the list of port entries, one per element of
    [ios] in creation order and separated by commas, and the declarations
    that follow are one per signal that is not a port. *)
Lemma print_module_structure (f : Fragment) (ios : list Signal) (name : string)
      (ns0 : Namespace) (attr_translate : AttrTranslate) (reg_initialization : bool) :
  _print_module f ios name ns0 attr_translate reg_initialization
  = (ports <- mapR (port_line f ns0 attr_translate) (sorted by_duid ios) ;;
     decls <- mapR (declaration f ns0 attr_translate reg_initialization)
                   (sorted by_duid
                      (sig_diff (sig_union (list_signals f)
                                           (list_special_ios f true true true)) ios)) ;;
     Ok ("module " ++ name ++ "(" ++ nl ++ join ("," ++ nl) ports ++ nl ++ ");"
         ++ nl ++ nl ++ cat decls ++ nl)).
Proof.
  unfold _print_module.
  set (step := fun (st : string * bool) (sig : Signal) => _).
  assert (Hstep : forall l st,
            foldR step l st
            = foldR (fun (st : string * bool) x =>
                       c <- port_line f ns0 attr_translate x ;;
                       Ok ((if snd st then fst st else fst st ++ ("," ++ nl)) ++ c,
                           false)) l st).
  { intros l st. apply foldR_ext. clear. intros [r firstp] sig.
    unfold step, port_line, port_kind, module_wires. cbn [fst snd].
    destruct (_print_attribute (attr sig) attr_translate) as [a|e];
      [|reflexivity].
    cbn [Py.bind]. f_equal. f_equal.
    destruct firstp, (a =? ""),
      (sig_in sig (list_special_ios f false false true)),
      (sig_in sig (sig_union (list_targets_fragment f)
                             (list_special_ios f false true true))),
      (sig_in sig (sig_union (_list_comb_wires f)
                             (list_special_ios f false true true)));
      now reassoc. }
  rewrite Hstep.
  pose proof (foldR_joined (port_line f ns0 attr_translate) ("," ++ nl)
                (sorted by_duid ios) ("module " ++ name ++ "(" ++ nl)) as Hj.
  destruct (foldR _ (sorted by_duid ios) _) as [[r b]|e];
    destruct (mapR (port_line f ns0 attr_translate) (sorted by_duid ios))
    as [ports|e']; simpl in Hj; try discriminate Hj; [|now inversion Hj].
  injection Hj as ->. cbn [Py.bind].
  set (dstep := fun (r : string) (sig : Signal) => _).
  rewrite (foldR_ext dstep
             (fun r x => c <- declaration f ns0 attr_translate reg_initialization x ;;
                         Ok (r ++ c))).
  - rewrite foldR_chunks, bind_assoc. apply bind_ext. intros decls.
    cbn [Py.bind]. f_equal. now reassoc.
  - intros r sig. unfold dstep, declaration, module_wires.
    destruct (_print_attribute (attr sig) attr_translate) as [a|e];
      [|reflexivity].
    cbn [Py.bind]. rewrite expr_text_constant.
    destruct (a =? ""),
      (sig_in sig (sig_union (_list_comb_wires f)
                             (list_special_ios f false true true))),
      reg_initialization; cbn [Py.bind]; f_equal; now reassoc.
Qed.

End ModuleFacts.

(** ** The orchestrator *)

Section ConvertFacts.
Context {collab : Collaborators}.
Variables (w : World) (f : Fragment) (ios : option (list Signal)) (name : string).
Variables (special_overrides : Overrides) (attr_translate : AttrTranslate).
Variables (display_run reg_initialization dummy_signal blocking_assign
           regular_comb : bool).

(** The call under study, by its [create_clock_domains] argument. *)
Let call (create_clock_domains : bool) : Outcome :=
  convert w f ios name special_overrides attr_translate create_clock_domains
          display_run reg_initialization dummy_signal blocking_assign regular_comb.

(** C9.  Let a synchronous block reference a domain name [k] that the
    registry lacks ([list_clock_domains] reporting the names the
    synchronous mapping uses), and let [missing] be the first name, in the
    sorted order the loop walks, that the registry lacks; it is [k] itself
    when [k] is the only one.  With auto-creation off the call raises,
    without returning any document and without having changed the fragment
    or the world, the exception whose message names [missing] and then
    lists every registered domain, one per line.  With auto-creation on the
    call only appends to the registry; every domain it appended has its
    clock and reset signals in the port set [ios]; the first one appended is
    the domain [ClockDomain(missing)] returned (if that raised, the call
    raises the same and appends nothing); and [k] is registered afterwards
    unless [ClockDomain(k)] returned a domain of another name or a
    [ClockDomain] call raised. *)
Theorem convert_unresolved_domain (k : string)
        (Hlist : forall d, In d (map fst (sync f)) -> In d (list_clock_domains f))
        (Hsync : In k (map fst (sync f)))
        (Hk : registered (clock_domains f) k = false) :
  exists missing,
    first_unregistered (clock_domains f) (sorted String.leb (list_clock_domains f))
    = Some missing
    /\ ((forall d, In d (list_clock_domains f) ->
                   registered (clock_domains f) d = false -> d = k) ->
        missing = k)
    /\ returned (call false)
       = Raise (Exception ("Unresolved clock domain " ++ missing
                           ++ ", availables:" ++ nl
                           ++ cat (map listed (clock_domains f))))
    /\ fragment_after (call false) = f
    /\ world_after (call false) = w
    /\ exists created,
         clock_domains (fragment_after (call true))
         = (clock_domains f ++ created)%list
         /\ Forall (exposed (ios_after (call true))) created
         /\ match new_ClockDomain missing (next_duid w) with
            | Ok (n, c, r, _) => exists rest, created = built n c r :: rest
            | Raise e => returned (call true) = Raise e /\ created = []
            end
         /\ (registered (clock_domains (fragment_after (call true))) k = true
             \/ (exists u n c r u',
                    new_ClockDomain k u = Ok (n, c, r, u') /\ n <> k
                    /\ In (built n c r) created)
             \/ (exists d u e,
                    In d (list_clock_domains f) /\ new_ClockDomain d u = Raise e
                    /\ returned (call true) = Raise e)).
Proof.
  set (names := sorted String.leb (list_clock_domains f)).
  set (ios0 := match ios with Some s => s | None => default_ios w end).
  assert (Hnames : forall d, In d names -> In d (list_clock_domains f)).
  { intros d Hd. eapply Permutation_in; [apply Permutation_sym, sorted_perm | exact Hd]. }
  assert (Hin : In k names).
  { eapply Permutation_in; [apply sorted_perm | now apply Hlist]. }
  destruct (first_unregistered_exists _ _ _ Hin Hk) as [missing Hm].
  destruct (first_unregistered_spec _ _ _ Hm) as [Hmin Hmr].
  exists missing. split; [exact Hm|]. split; [|split; [|split; [|split]]].
  - intros Honly. apply Honly; [now apply Hnames | exact Hmr].
  - unfold call, convert. fold names ios0.
    rewrite (resolve_raises names f ios0 (next_duid w) missing Hm). cbn.
    now rewrite unresolved_message_lines.
  - unfold call, convert. fold names ios0.
    now rewrite (resolve_raises names f ios0 (next_duid w) missing Hm).
  - unfold call, convert. fold names ios0.
    rewrite (resolve_raises names f ios0 (next_duid w) missing Hm). cbn.
    unfold ios0. destruct w, ios; reflexivity.
  - destruct (resolve_creates names f ios0 (next_duid w))
      as (res & f' & ios' & uid' & created & He & _ & _ & _ & Hr & _ & Hx & Hfirst & Hall).
    assert (Hf : fragment_after (call true) = f').
    { unfold call, convert. fold names ios0. rewrite He.
      destruct res as [[]|e]; [|reflexivity].
      now destruct (emit _ _ _ _ _ _ _ _ _ _ _) as [[out uid2]|e]. }
    assert (Hi : ios_after (call true) = ios').
    { unfold call, convert. fold names ios0. rewrite He.
      destruct res as [[]|e]; [|reflexivity].
      now destruct (emit _ _ _ _ _ _ _ _ _ _ _) as [[out uid2]|e]. }
    assert (Hraise : forall e, res = Raise e -> returned (call true) = Raise e).
    { intros e ->. unfold call, convert. fold names ios0. now rewrite He. }
    exists created. rewrite Hf, Hi. split; [exact Hr|]. split; [exact Hx|]. split.
    + specialize (Hfirst missing Hm).
      destruct (new_ClockDomain missing (next_duid w)) as [[[[n c] r] u]|e];
        [exact Hfirst|].
      destruct Hfirst as [Hres Hc]. split; [now apply Hraise | exact Hc].
    + destruct (Hall k Hin) as [H|[H|(d & u & e & Hd & Hn & Hres)]]; auto.
      right. right. exists d, u, e. repeat split; auto.
Qed.

End ConvertFacts.


(** * Further properties *)

(** ** Expressions *)

Lemma Expr_induction (P : Expr -> Prop)
      (Hconst : forall c, P (EConstant c))
      (Hsig : forall s, P (ESignal s))
      (Hop : forall operator operands, Forall P operands -> P (EOperator operator operands))
      (Hslice : forall value start stop, P value -> P (ESlice value start stop))
      (Hcat : forall l, Forall P l -> P (ECat l))
      (Hrep : forall v n, P v -> P (EReplicate v n))
      (Hother : forall t, P (EOther t)) :
  forall e, P e.
Proof.
  fix IH 1. intros [c|s|operator operands|value start stop|l|v n|t].
  - apply Hconst.
  - apply Hsig.
  - apply Hop. induction operands as [|o operands IHo]; constructor; [apply IH | exact IHo].
  - apply Hslice, IH.
  - apply Hcat. induction l as [|o l IHo]; constructor; [apply IH | exact IHo].
  - apply Hrep, IH.
  - apply Hother.
Qed.

Lemma mapR_app {A B} (g : A -> Result B) (l1 l2 : list A) :
  mapR g (l1 ++ l2)
  = (r1 <- mapR g l1 ;; r2 <- mapR g l2 ;; Ok (r1 ++ r2)%list).
Proof.
  induction l1 as [|x l1 IH]; simpl.
  - now rewrite bind_ret.
  - destruct (g x) as [y|e]; simpl; [|reflexivity].
    rewrite IH. destruct (mapR g l1) as [r1|e]; simpl; [|reflexivity].
    destruct (mapR g l2); reflexivity.
Qed.

(** The operands of a concatenation are rendered last to first. *)
Lemma visit_reversed_rev (ns0 : Namespace) (l : list Expr) :
  (fix visit_reversed (l : list Expr) : Result (list string) :=
     match l with
     | [] => Ok []
     | v :: l' =>
         rs <- visit_reversed l' ;;
         '(r, _) <- _print_expression ns0 v ;;
         Ok (rs ++ [r])%list
     end) l
  = mapR (expr_text ns0) (rev l).
Proof.
  induction l as [|v l IH]; [reflexivity|].
  cbn [rev]. rewrite mapR_app, IH.
  destruct (mapR (expr_text ns0) (rev l)) as [rs|e]; [|reflexivity].
  cbn [Py.bind mapR]. unfold expr_text.
  destruct (_print_expression ns0 v) as [[r s]|e]; reflexivity.
Qed.

(** X2.  A concatenation renders its operands from the last to the first,
    separated by commas inside braces, and is unsigned; the first operand
    that fails in that order decides the exception. *)
Theorem print_cat_reversed (ns0 : Namespace) (l : list Expr) :
  _print_cat ns0 l
  = (rs <- mapR (expr_text ns0) (rev l) ;; Ok ("{" ++ join ", " rs ++ "}", false)).
Proof.
  unfold _print_cat. cbn [_print_expression]. now rewrite visit_reversed_rev.
Qed.

Lemma renderer_exception_assert : renderer_exception AssertionError.
Proof. now left. Qed.

Lemma accepted_operands (ns0 : Namespace) (l : list Expr) :
  Forall (accepted ns0) l ->
  match mapR (expr_text ns0) l with
  | Ok _ => forallb wf_expr l = true
  | Raise x => forallb wf_expr l = false /\ renderer_exception x
  end.
Proof.
  induction 1 as [|e l He Hl IH]; [reflexivity|].
  cbn [mapR forallb]. unfold expr_text at 1. unfold accepted in He.
  destruct (_print_expression ns0 e) as [[r s]|x]; cbn [Py.bind].
  - destruct He as [-> _].
    destruct (mapR (expr_text ns0) l) as [rs|x]; cbn [Py.bind]; [exact IH|].
    exact IH.
  - destruct He as [-> Hx]. now split.
Qed.

Lemma forallb_rev {A} (p : A -> bool) (l : list A) : forallb p (rev l) = forallb p l.
Proof.
  induction l as [|x l IH]; [reflexivity|].
  cbn [rev]. rewrite forallb_app, IH. simpl. rewrite andb_true_r. apply andb_comm.
Qed.

Lemma expression_accepted (ns0 : Namespace) (e : Expr) : accepted ns0 e.
Proof.
  induction e as [c|s|operator operands IH|value start stop IH|l IH|v n IH|t]
    using Expr_induction; unfold accepted in *.
  - simpl. auto.
  - simpl. auto.
  - destruct operands as [|o1 [|o2 [|o3 [|o4 rest]]]];
      try (simpl; split; [reflexivity | apply renderer_exception_assert]).
    + inversion IH as [|? ? H1 _]; subst. unfold accepted in H1.
      cbn [_print_expression wf_expr expr_signed].
      destruct (_print_expression ns0 o1) as [[r1 s1]|x]; cbn [Py.bind]; [|exact H1].
      destruct H1 as [H1 ->]. destruct (operator =? "-"); auto.
    + inversion IH as [|? ? H1 IH1]; subst. inversion IH1 as [|? ? H2 _]; subst.
      unfold accepted in H1, H2.
      cbn [_print_expression wf_expr expr_signed].
      destruct (_print_expression ns0 o1) as [[r1 s1]|x]; cbn [Py.bind].
      * destruct H1 as [-> ->].
        destruct (_print_expression ns0 o2) as [[r2 s2]|x]; cbn [Py.bind].
        -- destruct H2 as [-> ->]. auto.
        -- exact H2.
      * destruct H1 as [-> Hx]. auto.
    + inversion IH as [|? ? H1 IH1]; subst. inversion IH1 as [|? ? H2 IH2]; subst.
      inversion IH2 as [|? ? H3 _]; subst.
      unfold accepted in H1, H2, H3.
      cbn [_print_expression wf_expr expr_signed].
      destruct (operator =? "m"); cbn [assert Py.bind andb];
        [|split; [reflexivity | apply renderer_exception_assert]].
      destruct (_print_expression ns0 o1) as [[r1 s1]|x]; cbn [Py.bind].
      * destruct H1 as [-> _].
        destruct (_print_expression ns0 o2) as [[r2 s2]|x]; cbn [Py.bind].
        -- destruct H2 as [-> ->].
           destruct (_print_expression ns0 o3) as [[r3 s3]|x]; cbn [Py.bind].
           ++ destruct H3 as [-> ->]. auto.
           ++ exact H3.
        -- destruct H2 as [-> Hx]. auto.
      * destruct H1 as [-> Hx]. auto.
  - cbn [_print_expression wf_expr expr_signed].
    destruct (stop - start >=? 1)%Z; cbn [assert Py.bind andb];
      [|split; [reflexivity | apply renderer_exception_assert]].
    destruct (is_1bit_signal value).
    + destruct (start =? 0)%Z; cbn [assert Py.bind andb];
        [|split; [reflexivity | apply renderer_exception_assert]].
      destruct (_print_expression ns0 value) as [[r s]|x]; cbn [Py.bind]; exact IH.
    + cbn [Py.bind andb].
      destruct (_print_expression ns0 value) as [[r s]|x]; cbn [Py.bind]; exact IH.
  - cbn [_print_expression wf_expr expr_signed]. rewrite visit_reversed_rev.
    pose proof (accepted_operands ns0 (rev l) (Forall_rev IH)) as H.
    rewrite forallb_rev in H.
    destruct (mapR (expr_text ns0) (rev l)) as [rs|x]; cbn [Py.bind]; auto.
  - cbn [_print_expression wf_expr expr_signed].
    destruct (_print_expression ns0 v) as [[r s]|x]; cbn [Py.bind]; [|exact IH].
    destruct IH as [-> _]. auto.
  - simpl. split; [reflexivity|]. right. now exists t.
Qed.

(** X1.  Rendering an expression succeeds exactly on the well-formed ones
    (one to three operands, [m] as the only ternary operator, slices at
    least one bit wide and starting at 0 on a 1-bit signal, no foreign
    object); the signedness it returns is the structural one, whatever the
    namespace; and a failure is an [AssertionError] or the renderer's
    [TypeError]. *)
Theorem print_expression_accepts (ns0 : Namespace) (e : Expr) :
  match _print_expression ns0 e with
  | Ok (_, s) => wf_expr e = true /\ s = expr_signed e
  | Raise x => wf_expr e = false /\ renderer_exception x
  end.
Proof. exact (expression_accepted ns0 e). Qed.

(** X3.  A three-operand operator other than [m] fails its assertion before
    any operand is rendered.  For [m] the result is [(sel ? a : b)] with the
    selector's text as it is; the branch that is unsigned while the other is
    signed is replaced by the text [$signed({1'd0 r}))], which has no comma
    after the zero bit and closes one parenthesis more than it opens; the
    flag is the disjunction of the branches' flags. *)
Theorem print_ternary_operator (ns0 : Namespace) (operator : string) (e1 e2 e3 : Expr) :
  (operator <> "m" -> _print_operator ns0 operator [e1; e2; e3] = Raise AssertionError)
  /\ (forall r1 s1 r2 s2 r3 s3,
        _print_expression ns0 e1 = Ok (r1, s1) ->
        _print_expression ns0 e2 = Ok (r2, s2) ->
        _print_expression ns0 e3 = Ok (r3, s3) ->
        _print_operator ns0 "m" [e1; e2; e3]
        = Ok ("(" ++ r1 ++ " ? "
                  ++ (if s3 && negb s2 then "$signed({1'd0 " ++ r2 ++ "}))" else r2)
                  ++ " : "
                  ++ (if s2 && negb s3 then "$signed({1'd0 " ++ r3 ++ "}))" else r3)
                  ++ ")",
              s2 || s3)).
Proof.
  unfold _print_operator. split.
  - intros H. apply String.eqb_neq in H. cbn [_print_expression]. now rewrite H.
  - intros r1 s1 r2 s2 r3 s3 H1 H2 H3. cbn [_print_expression].
    rewrite H1, H2, H3. simpl. f_equal. f_equal. unfold to_signed.
    destruct (s3 && negb s2), (s2 && negb s3); now reassoc.
Qed.

(** X4.  An operator with no operand or with more than three fails its
    assertion, whatever its symbol and operands. *)
Theorem print_operator_arity (ns0 : Namespace) (operator : string)
        (operands : list Expr)
        (H : (List.length operands = 0 \/ 3 < List.length operands)%nat) :
  _print_operator ns0 operator operands = Raise AssertionError.
Proof.
  unfold _print_operator.
  destruct operands as [|o1 [|o2 [|o3 [|o4 rest]]]]; simpl in H; try lia; reflexivity.
Qed.

(** ** Attributes *)

Lemma join_snoc (sep : string) (es : list string) (x : string) :
  join sep (es ++ [x]) = if is_nil es then x else join sep es ++ sep ++ x.
Proof.
  induction es as [|e es IH]; [reflexivity|].
  cbn [app is_nil]. destruct es as [|e' es].
  - simpl. reflexivity.
  - change (join sep (e :: (e' :: es) ++ [x]))
      with (e ++ sep ++ join sep ((e' :: es) ++ [x])).
    rewrite IH. cbn [is_nil].
    change (join sep (e :: e' :: es)) with (e ++ sep ++ join sep (e' :: es)).
    now rewrite !append_assoc.
Qed.

Lemma attr_fold (attr_translate : AttrTranslate) (attrs : list Attr) :
  forall es,
    fold_left (attr_step attr_translate) attrs (join ", " es, is_nil es)
    = (join ", " (es ++ flat_map (attr_entry attr_translate) attrs),
       is_nil (es ++ flat_map (attr_entry attr_translate) attrs)).
Proof.
  induction attrs as [|a attrs IH]; intros es.
  - simpl. now rewrite app_nil_r.
  - cbn [fold_left flat_map].
    assert (Hstep : attr_step attr_translate (join ", " es, is_nil es) a
                    = (join ", " (es ++ attr_entry attr_translate a),
                       is_nil (es ++ attr_entry attr_translate a))).
    { unfold attr_step, attr_entry.
      destruct (match a with
                | AttrName name => dict_get attr_translate name
                | AttrTuple attr_name attr_value => Some (attr_name, attr_value)
                end) as [[n v]|].
      - rewrite join_snoc. destruct es as [|e es]; cbn [is_nil app].
        + reflexivity.
        + f_equal. now rewrite !append_assoc.
      - now rewrite app_nil_r. }
    rewrite Hstep, IH. now rewrite app_assoc.
Qed.

Lemma join_nonempty (sep e : string) (es : list string) :
  e <> "" -> join sep (e :: es) <> "".
Proof.
  intros He. destruct es as [|e' es]; [exact He|].
  change (join sep (e :: e' :: es)) with (e ++ sep ++ join sep (e' :: es)).
  destruct e; [congruence | discriminate].
Qed.

Lemma attr_entry_nonempty (attr_translate : AttrTranslate) (a : Attr) (e : string) :
  In e (attr_entry attr_translate a) -> e <> "".
Proof.
  unfold attr_entry.
  destruct (match a with
            | AttrName name => dict_get attr_translate name
            | AttrTuple attr_name attr_value => Some (attr_name, attr_value)
            end) as [[n v]|]; [|intros []].
  intros [<-|[]]. destruct n; discriminate.
Qed.

Section SortedR.
Context {A : Type} (le : A -> A -> Result bool).
Hypothesis le_asym : forall x y, le x y = Ok false -> le y x = Ok true.

Let R (x y : A) : Prop := le x y = Ok true.

Lemma insert_byR_spec (x : A) (l l' : list A) :
  insert_byR le x l = Ok l' ->
  Permutation (x :: l) l'
  /\ (Sorted R l -> Sorted R l')
  /\ (forall a, R a x -> HdRel R a l -> HdRel R a l').
Proof.
  revert l'. induction l as [|y l IH]; intros l' H; cbn [insert_byR] in H.
  - injection H as <-. split; [apply Permutation_refl|]. split.
    + intros _. repeat constructor.
    + intros a Ha _. now constructor.
  - destruct (le x y) as [[|]|e] eqn:E; cbn [Py.bind] in H; [| |discriminate].
    + injection H as <-. split; [apply Permutation_refl|]. split.
      * intros Hs. constructor; [assumption | now constructor].
      * intros a Ha _. now constructor.
    + destruct (insert_byR le x l) as [r|e] eqn:Er; cbn [Py.bind] in H;
        [|discriminate].
      injection H as <-. destruct (IH r eq_refl) as (Hp & Hs & Hh).
      split; [|split].
      * eapply perm_trans; [apply perm_swap | now apply perm_skip].
      * intros Hy. inversion Hy as [|? ? Hy' Hhd]; subst.
        constructor; [now apply Hs|]. apply Hh; [|assumption].
        now apply le_asym.
      * intros a Ha Hhd. inversion Hhd; subst. now constructor.
Qed.

Lemma sortedR_spec (l l' : list A) :
  sortedR le l = Ok l' -> Permutation l l' /\ Sorted R l'.
Proof.
  revert l'. induction l as [|x l IH]; intros l' H; cbn [sortedR] in H.
  - injection H as <-. split; constructor.
  - destruct (sortedR le l) as [r|e]; cbn [Py.bind] in H; [|discriminate].
    destruct (IH r eq_refl) as [Hp Hs].
    destruct (insert_byR_spec x r l' H) as (Hp' & Hs' & _).
    split; [|now apply Hs'].
    eapply perm_trans; [apply perm_skip, Hp | exact Hp'].
Qed.

Lemma sortedR_total (P : A -> Prop) (l : list A) :
  (forall x y, P x -> P y -> exists b, le x y = Ok b) ->
  Forall P l -> exists l', sortedR le l = Ok l' /\ Forall P l'.
Proof.
  intros Hle. induction 1 as [|x l Hx Hl IH]; [exists []; split; constructor|].
  destruct IH as (r & Hr & HP). cbn [sortedR]. rewrite Hr. cbn [Py.bind].
  clear Hr Hl. induction HP as [|y r Hy HP IH]; cbn [insert_byR].
  - exists [x]. split; [reflexivity | now constructor].
  - destruct (Hle x y Hx Hy) as [b ->]. cbn [Py.bind]. destruct b.
    + eexists. split; [reflexivity|]. repeat constructor; assumption.
    + destruct IH as (r' & -> & HP'). cbn [Py.bind].
      eexists. split; [reflexivity|]. now constructor.
Qed.

End SortedR.

Lemma ltb_asym (a b : string) : String.ltb a b = true -> String.ltb b a = false.
Proof.
  unfold String.ltb. rewrite (String.compare_antisym b a).
  destruct (String.compare a b); simpl; congruence.
Qed.

Lemma value_eqb_sym (a b : AttrValue) : value_eqb a b = value_eqb b a.
Proof.
  destruct a, b; simpl; auto using String.eqb_sym, Z.eqb_sym.
Qed.

Lemma key_lt_asym (a b : string * AttrValue) :
  key_lt a b = Ok true -> key_lt b a = Ok false.
Proof.
  unfold key_lt. rewrite (String.eqb_sym (fst b)), (value_eqb_sym (snd b)).
  destruct (fst a =? fst b); cbn [negb].
  - destruct (value_eqb (snd a) (snd b)); cbn [negb]; [discriminate|].
    destruct (snd a), (snd b); cbn [value_lt]; try discriminate.
    + intros [= H]. now rewrite (ltb_asym _ _ H).
    + intros [= H]. f_equal. apply Z.ltb_lt in H. apply Z.ltb_ge. lia.
  - intros [= H]. now rewrite (ltb_asym _ _ H).
Qed.

Lemma attr_le_asym (x y : Attr) : attr_le x y = Ok false -> attr_le y x = Ok true.
Proof.
  unfold attr_le. intros H.
  destruct (key_lt (attr_key y) (attr_key x)) as [[|]|e] eqn:E; try discriminate H.
  now rewrite (key_lt_asym _ _ E).
Qed.

Lemma attr_le_string_valued (x y : Attr) :
  string_valued x -> string_valued y -> exists b, attr_le x y = Ok b.
Proof.
  unfold attr_le, key_lt.
  destruct x as [nx|nx [vx|vx]], y as [ny|ny [vy|vy]]; cbn; try contradiction;
    intros _ _;
    repeat match goal with
           | |- context [if ?c then _ else _] => destruct c; cbn
           end; eauto.
Qed.

(** X9.  The annotation lists, for the attributes in sorted order, the
    entries [name = value] of those that translate, separated by commas and
    wrapped in the attribute brackets; with no entry the result is the empty
    string.  The sorted order is a rearrangement of the set in which no
    attribute's key is above its successor's. *)
Theorem print_attribute_entries (attr : list Attr) (attr_translate : AttrTranslate) :
  _print_attribute attr attr_translate
  = (attrs <- sortedR attr_le attr ;;
     Ok (match flat_map (attr_entry attr_translate) attrs with
         | [] => ""
         | es => "(" ++ star ++ " " ++ join ", " es ++ " " ++ star ++ ")"
         end))
  /\ (forall attrs, sortedR attr_le attr = Ok attrs ->
        Permutation attr attrs
        /\ Sorted (fun x y => attr_le x y = Ok true) attrs).
Proof.
  split.
  - unfold _print_attribute. apply bind_ext. intros attrs.
    pose proof (attr_fold attr_translate attrs []) as H.
    change (join ", " [], @is_nil string []) with ("", true) in H.
    cbn [app] in H. cbn [Py.bind]. rewrite H. cbn [fst].
    destruct (flat_map (attr_entry attr_translate) attrs) as [|e es] eqn:E;
      [reflexivity|].
    assert (He : e <> "").
    { assert (Hin : In e (flat_map (attr_entry attr_translate) attrs))
        by (rewrite E; now left).
      apply in_flat_map in Hin as [a [_ Ha]]. eapply attr_entry_nonempty, Ha. }
    apply (join_nonempty ", " e es) in He. apply String.eqb_neq in He.
    now rewrite He.
  - intros attrs H. apply (sortedR_spec attr_le attr_le_asym _ _ H).
Qed.

(** X10.  When every tuple attribute carries a string value the annotation
    is always produced: no comparison of the sort can fail. *)
Theorem print_attribute_string_values (attr : list Attr)
        (attr_translate : AttrTranslate) (H : Forall string_valued attr) :
  exists r, _print_attribute attr attr_translate = Ok r.
Proof.
  destruct (sortedR_total attr_le string_valued attr attr_le_string_valued H)
    as (attrs & E & _).
  unfold _print_attribute. rewrite E. cbn [Py.bind]. eauto.
Qed.

(** ** Multiway branches *)

Section CaseFacts.
Context {collab : Collaborators}.

Lemma print_node_case (ns0 : Namespace) (at_ : AssignType) (level : nat)
      (test : Expr) (cases : list (CaseKey * list Stmt)) (tf : option Signal) :
  _print_node ns0 at_ level (SCase test cases) tf
  = if filtered_out tf (SCase test cases) then Ok ""
    else match cases with
         | [] => Ok ""
         | _ :: _ => case_text ns0 level test (rendered_arms ns0 at_ level tf cases)
         end.
Proof.
  cbn [_print_node]. destruct (filtered_out tf (SCase test cases)); [reflexivity|].
  lazymatch goal with
  | |- context [constant_arms (?F cases)] =>
      assert (HF : forall cs, F cs = rendered_arms ns0 at_ level tf cs)
  end.
  { induction cs as [|[k v] cs IH]; [reflexivity|].
    cbn [rendered_arms map fst snd]. f_equal. exact IH. }
  rewrite !HF. clear HF.
  destruct cases as [|kv0 cases0]; [reflexivity|].
  generalize (rendered_arms ns0 at_ level tf (kv0 :: cases0)). intros arms.
  unfold case_text.
  destruct (expr_text ns0 test) as [c|e]; [|reflexivity]. cbn [Py.bind].
  rewrite (foldR_ext _ (fun r arm => t <- case_arm level arm ;; Ok (r ++ t))).
  - rewrite foldR_chunks, bind_assoc. apply bind_ext. intros texts.
    cbn [Py.bind]. unfold case_default.
    destruct (default_arm arms) as [body|]; cbn [Py.bind].
    + destruct body as [b|e]; [|reflexivity]. cbn [Py.bind]. f_equal. now reassoc.
    + f_equal. now reassoc.
  - intros r arm. unfold case_arm. rewrite expr_text_constant. cbn [Py.bind].
    destruct (snd arm) as [b|e]; [|reflexivity]. cbn [Py.bind]. f_equal.
    now reassoc.
Qed.

End CaseFacts.

Section SortedUnique.
Context {A : Type} (key : A -> Z).

Let le (x y : A) : bool := (key x <=? key y)%Z.
Let R (x y : A) : Prop := le x y = true.

Lemma sorted_lists_equal (a : list A) :
  forall b, StronglySorted R a -> StronglySorted R b -> Permutation a b ->
            NoDup (map key a) -> a = b.
Proof.
  induction a as [|x a IH]; intros b Ha Hb Hp Hn.
  - now apply Permutation_nil in Hp.
  - destruct b as [|y b]; [now apply Permutation_sym, Permutation_nil in Hp|].
    assert (Hxy : x = y).
    { assert (Hx : In x (y :: b)) by (eapply Permutation_in; [exact Hp | now left]).
      assert (Hy : In y (x :: a))
        by (eapply Permutation_in; [apply Permutation_sym, Hp | now left]).
      destruct Hx as [Hx|Hx]; [now symmetry|].
      destruct Hy as [Hy|Hy]; [assumption|]. exfalso.
      inversion Ha as [|? ? _ Fa]; subst. inversion Hb as [|? ? _ Fb]; subst.
      rewrite Forall_forall in Fa, Fb.
      pose proof (Fa y Hy) as H1. pose proof (Fb x Hx) as H2.
      unfold R, le in H1, H2. apply Z.leb_le in H1, H2.
      inversion Hn as [|? ? Hnot _]; subst. apply Hnot.
      apply in_map_iff. exists y. split; [lia | assumption]. }
    subst y. f_equal. apply IH.
    + now inversion Ha.
    + now inversion Hb.
    + now apply Permutation_cons_inv in Hp.
    + now inversion Hn.
Qed.

Lemma sorted_StronglySorted (l : list A) : StronglySorted R (sorted le l).
Proof.
  apply Sorted_StronglySorted.
  - intros x y z. unfold R, le. rewrite !Z.leb_le. lia.
  - apply sorted_Sorted. intros x y. unfold le.
    destruct (Z.leb_spec (key x) (key y)); [now left|]. right. apply Z.leb_le. lia.
Qed.

(** Sorting by distinct keys forgets the order of the input. *)
Lemma sorted_unique (l l' : list A) :
  Permutation l l' -> NoDup (map key l) -> sorted le l = sorted le l'.
Proof.
  intros Hp Hn. apply sorted_lists_equal; try apply sorted_StronglySorted.
  - eapply perm_trans; [apply Permutation_sym, sorted_perm|].
    eapply perm_trans; [exact Hp | apply sorted_perm].
  - eapply Permutation_NoDup; [|exact Hn]. apply Permutation_map, sorted_perm.
Qed.

End SortedUnique.

Lemma constant_arms_values (arms : list (CaseKey * Result string)) :
  NoDup (map (fun kv => key_tag (fst kv)) arms) ->
  NoDup (map case_key_value (constant_arms arms)).
Proof.
  induction arms as [|[k body] arms IH]; intros Hn; [constructor|].
  inversion Hn as [|? ? Hnot Hn']; subst.
  destruct k as [c|s]; cbn [constant_arms flat_map fst snd app map].
  - constructor; [|now apply IH].
    intros H. apply Hnot. apply in_map_iff in H as [[c' b'] [Hv Hin]].
    unfold constant_arms in Hin. apply in_flat_map in Hin as [[k'' b''] [Hin Hk]].
    apply in_map_iff. exists (k'', b''). split; [|assumption].
    destruct k''; cbn in Hk; [|contradiction].
    destruct Hk as [[= <- <-]|[]]. cbn. unfold case_key_value in Hv. cbn in Hv.
    now rewrite Hv.
  - now apply IH.
Qed.

Lemma default_arm_perm (arms arms' : list (CaseKey * Result string)) :
  Permutation arms arms' ->
  NoDup (map (fun kv => key_tag (fst kv)) arms) ->
  default_arm arms = default_arm arms'.
Proof.
  induction 1 as [|[k b] l l' Hp IH|[k1 b1] [k2 b2] l|l l' l'' Hp1 IH1 Hp2 IH2];
    intros Hn.
  - reflexivity.
  - inversion Hn; subst. cbn [default_arm].
    destruct k as [c|s]; [now apply IH|].
    destruct (s =? "default"); [reflexivity | now apply IH].
  - cbn [default_arm].
    destruct k1 as [c1|s1], k2 as [c2|s2]; try reflexivity.
    destruct (String.eqb_spec s1 "default") as [->|H1],
             (String.eqb_spec s2 "default") as [->|H2]; try reflexivity.
    exfalso. inversion Hn as [|? ? Hnot _]; subst. apply Hnot. now left.
  - rewrite IH1 by assumption. apply IH2.
    eapply Permutation_NoDup; [|exact Hn]. now apply Permutation_map.
Qed.

Section CaseOrder.
Context {collab : Collaborators}.

(** X6.  The rendering of a multiway branch does not depend on the order in
    which the [cases] mapping lists its (distinct) keys. *)
Theorem print_node_case_order (ns0 : Namespace) (at_ : AssignType) (level : nat)
        (test : Expr) (cases cases' : list (CaseKey * list Stmt))
        (Hperm : Permutation cases cases')
        (Hkeys : NoDup (map (fun kv => key_tag (fst kv)) cases)) :
  _print_node ns0 at_ level (SCase test cases) None
  = _print_node ns0 at_ level (SCase test cases') None.
Proof.
  rewrite !print_node_case. cbn [filtered_out].
  destruct cases as [|kv cases0].
  - apply Permutation_nil in Hperm. now subst.
  - destruct cases' as [|kv' cases0'];
      [now apply Permutation_sym, Permutation_nil in Hperm|].
    set (arms := rendered_arms ns0 at_ level None (kv :: cases0)).
    set (arms' := rendered_arms ns0 at_ level None (kv' :: cases0')).
    assert (Hp : Permutation arms arms') by now apply Permutation_map.
    assert (Hn : NoDup (map (fun kv => key_tag (fst kv)) arms)).
    { unfold arms, rendered_arms. rewrite map_map. exact Hkeys. }
    unfold case_text, case_default, by_case_value.
    rewrite (sorted_unique case_key_value (constant_arms arms) (constant_arms arms')).
    + now rewrite (default_arm_perm arms arms' Hp Hn).
    + unfold constant_arms. now apply Permutation_flat_map.
    + now apply constant_arms_values.
Qed.

End CaseOrder.

(** ** Sets of signals and the simulation map *)

Lemma sig_in_app (s : Signal) (a b : list Signal) :
  sig_in s (a ++ b)%list = sig_in s a || sig_in s b.
Proof. unfold sig_in. apply existsb_app. Qed.

Lemma same_signal_sym (a b : Signal) : same_signal a b = same_signal b a.
Proof. apply Z.eqb_sym. Qed.

Lemma sig_in_congr (x y : Signal) (l : list Signal) :
  same_signal x y = true -> sig_in x l = sig_in y l.
Proof.
  intros H. unfold sig_in. induction l as [|z l IH]; [reflexivity|].
  cbn [existsb]. rewrite IH. f_equal. unfold same_signal in *.
  apply Z.eqb_eq in H. now rewrite H.
Qed.

Lemma sig_in_union (s : Signal) (a b : list Signal) :
  sig_in s (sig_union a b) = sig_in s a || sig_in s b.
Proof.
  revert a. induction b as [|x b IH]; intros a; cbn [sig_union].
  - now rewrite orb_false_r.
  - destruct (sig_in x a) eqn:E; rewrite IH.
    + cbn [sig_in existsb]. fold (sig_in s b).
      destruct (same_signal s x) eqn:Es; [|reflexivity].
      rewrite (sig_in_congr s x a Es), E. reflexivity.
    + rewrite sig_in_app. cbn [sig_in existsb]. fold (sig_in s a) (sig_in s b).
      now rewrite orb_false_r, orb_assoc.
Qed.

Section Wires.
Context {collab : Collaborators}.

(** X12.  A signal is among the combinatorial wires exactly when it is a
    target of a group that consists of one assignment. *)
Theorem list_comb_wires_member (f : Fragment) (s : Signal) :
  sig_in s (_list_comb_wires f)
  = existsb (fun g => is_single_assign (snd g) && sig_in s (fst g))
            (group_by_targets (comb f)).
Proof.
  unfold _list_comb_wires.
  assert (H : forall groups r,
             sig_in s (fold_left (fun r g => if is_single_assign (snd g)
                                             then sig_union r (fst g) else r)
                                 groups r)
             = sig_in s r
               || existsb (fun g => is_single_assign (snd g) && sig_in s (fst g))
                          groups).
  { induction groups as [|g groups IH]; intros r; cbn [fold_left existsb].
    - now rewrite orb_false_r.
    - rewrite IH. destruct (is_single_assign (snd g)); cbn [andb].
      + now rewrite sig_in_union, orb_assoc.
      + reflexivity. }
  now rewrite H.
Qed.

End Wires.

Lemma map_get_append (m : list (Signal * list Stmt)) (t t' : Signal) (st : Stmt) :
  map_get (map_append m t st) t'
  = if same_signal t t' then (map_get m t' ++ [st])%list else map_get m t'.
Proof.
  induction m as [|[k v] m IH]; cbn [map_append map_get].
  - destruct (same_signal t t'); reflexivity.
  - destruct (same_signal k t) eqn:Ekt; cbn [map_get].
    + destruct (same_signal k t') eqn:Ekt'.
      * rewrite same_signal_sym in Ekt.
        now rewrite (same_signal_trans t k t' Ekt Ekt').
      * destruct (same_signal t t') eqn:Ett'; [|reflexivity].
        now rewrite (same_signal_trans k t t' Ekt Ett') in Ekt'.
    + destruct (same_signal k t') eqn:Ekt'; [|exact IH].
      destruct (same_signal t t') eqn:Ett'; [|reflexivity].
      rewrite same_signal_sym in Ett'.
      now rewrite (same_signal_trans k t' t Ekt' Ett') in Ekt.
Qed.

Lemma map_keys_append (m : list (Signal * list Stmt)) (t : Signal) (st : Stmt) :
  map_keys (map_append m t st)
  = if sig_in t (map_keys m) then map_keys m else (map_keys m ++ [t])%list.
Proof.
  unfold map_keys. induction m as [|[k v] m IH]; [reflexivity|].
  cbn [map_append map fst sig_in existsb]. fold (sig_in t (map fst m)).
  rewrite (same_signal_sym t k).
  destruct (same_signal k t); cbn [map fst orb]; [reflexivity|].
  rewrite IH. destruct (sig_in t (map fst m)); reflexivity.
Qed.

Lemma sig_in_duid (t : Signal) (l : list Signal) :
  sig_in t l = true <-> In (duid t) (map duid l).
Proof.
  unfold sig_in. rewrite existsb_exists, in_map_iff. split.
  - intros [x [Hx E]]. exists x. apply Z.eqb_eq in E. auto.
  - intros [x [E Hx]]. exists x. split; [assumption|]. apply Z.eqb_eq. auto.
Qed.

Lemma map_append_ok (m : list (Signal * list Stmt)) (t : Signal) (st : Stmt) :
  map_ok m -> map_ok (map_append m t st).
Proof.
  intros [Hn Hf]. split.
  - rewrite map_keys_append. destruct (sig_in t (map_keys m)) eqn:E; [assumption|].
    rewrite map_app. cbn [map]. apply NoDup_app; [assumption | repeat constructor; intros [] |].
    intros x Hx [<-|[]]. apply sig_in_duid in Hx. congruence.
  - clear Hn. induction m as [|[k v] m IH]; cbn [map_append].
    + repeat constructor. discriminate.
    + inversion Hf as [|? ? Hv Hf']; subst.
      destruct (same_signal k t); constructor; auto.
      cbn. intros H. now apply app_eq_nil in H as [_ H].
Qed.

Lemma map_get_entry (m : list (Signal * list Stmt)) (t : Signal) (v : list Stmt) :
  NoDup (map duid (map_keys m)) -> In (t, v) m -> map_get m t = v.
Proof.
  induction m as [|[k w] m IH]; intros Hn Hin; [contradiction|].
  cbn [map_get]. cbn in Hn. inversion Hn as [|? ? Hnot Hn']; subst.
  destruct Hin as [[= -> ->]|Hin].
  - now rewrite same_signal_refl.
  - destruct (same_signal k t) eqn:E; [|now apply IH].
    exfalso. apply Hnot. apply Z.eqb_eq in E. rewrite E.
    apply in_map_iff. exists t. split; [reflexivity|].
    apply in_map_iff. now exists (t, v).
Qed.

Section TargetMapFacts.
Context {collab : Collaborators}.

Lemma targets_fold (st : Stmt) (ts : list Signal) :
  NoDup (map duid ts) ->
  forall m t',
    map_get (fold_left (fun m t => map_append m t st) ts m) t'
    = (map_get m t' ++ (if sig_in t' ts then [st] else []))%list.
Proof.
  induction ts as [|t ts IH]; intros Hn m t'; cbn [fold_left].
  - now rewrite app_nil_r.
  - inversion Hn as [|? ? Hnot Hn']; subst. rewrite (IH Hn'), map_get_append.
    cbn [sig_in existsb]. fold (sig_in t' ts). rewrite (same_signal_sym t' t).
    destruct (same_signal t t') eqn:E; cbn [orb].
    + assert (Hts : sig_in t' ts = false).
      { destruct (sig_in t' ts) eqn:E'; [|reflexivity]. exfalso. apply Hnot.
        apply sig_in_duid in E'. apply Z.eqb_eq in E. now rewrite E. }
      rewrite Hts. now rewrite app_nil_r.
    + reflexivity.
Qed.

Lemma targets_fold_ok (st : Stmt) (ts : list Signal) :
  forall m, map_ok m -> map_ok (fold_left (fun m t => map_append m t st) ts m).
Proof.
  induction ts as [|t ts IH]; intros m Hm; [assumption|].
  cbn [fold_left]. apply IH. now apply map_append_ok.
Qed.

Lemma target_stmt_map_fold (stmts : list Stmt) :
  Forall (fun st => NoDup (map duid (list_targets st))) stmts ->
  forall m t',
    map_ok m ->
    let m' := fold_left (fun m statement =>
                           fold_left (fun m t => map_append m t statement)
                                     (list_targets statement) m) stmts m in
    map_ok m' /\ map_get m' t' = (map_get m t' ++ filter (writes t') stmts)%list.
Proof.
  induction 1 as [|st stmts Hst Hl IH]; intros m t' Hm; cbn [fold_left filter].
  - split; [assumption | now rewrite app_nil_r].
  - destruct (IH (fold_left (fun m t => map_append m t st) (list_targets st) m) t'
                 (targets_fold_ok st _ m Hm)) as [Hok Hget].
    split; [exact Hok|]. cbv zeta in Hget. rewrite Hget, (targets_fold st _ Hst).
    unfold writes at 2. rewrite <- app_assoc.
    destruct (sig_in t' (list_targets st)); reflexivity.
Qed.

(** X13.  When every statement's target set lists each signal once, the map
    of the simulation strategy has one key per written signal, all distinct;
    the list under a key is never empty and holds exactly the statements
    writing that signal, in their order. *)
Theorem target_stmt_map_groups (stmts : list Stmt)
        (Hsets : Forall (fun st => NoDup (map duid (list_targets st))) stmts) :
  NoDup (map duid (map_keys (target_stmt_map stmts)))
  /\ (forall t group, In (t, group) (target_stmt_map stmts) ->
        group = filter (writes t) stmts /\ group <> [])
  /\ (forall t st, In st stmts -> writes t st = true ->
        sig_in t (map_keys (target_stmt_map stmts)) = true).
Proof.
  assert (Hnil : map_ok []) by (split; constructor).
  assert (Hall : forall t', map_ok (target_stmt_map stmts)
                            /\ map_get (target_stmt_map stmts) t' = filter (writes t') stmts).
  { intros t'. apply (target_stmt_map_fold stmts Hsets [] t' Hnil). }
  destruct (Hall (Signal_named "" 0)) as [[Hn Hf] _].
  split; [exact Hn|]. split.
  - intros t group Hin. split.
    + rewrite <- (proj2 (Hall t)). symmetry. now apply map_get_entry.
    + rewrite Forall_forall in Hf. apply (Hf _ Hin).
  - intros t st Hin Hw.
    destruct (sig_in t (map_keys (target_stmt_map stmts))) eqn:E; [reflexivity|].
    exfalso. assert (Hget : map_get (target_stmt_map stmts) t = []).
    { clear -E. induction (target_stmt_map stmts) as [|[k v] m IH]; [reflexivity|].
      cbn in E. apply orb_false_iff in E as [E1 E2]. cbn [map_get].
      rewrite same_signal_sym, E1. now apply IH. }
    rewrite (proj2 (Hall t)) in Hget.
    assert (Hin' : In st (filter (writes t) stmts)) by (apply filter_In; auto).
    rewrite Hget in Hin'. contradiction.
Qed.

End TargetMapFacts.

(** ** Combinatorial logic, simulation strategy *)

Lemma foldR_enumerated {A} (chunk : Z * A -> Result string) (l : list A) :
  forall (r0 : string) (uid n : Z),
    foldR (fun (st : string * Z * Z) (x : A) =>
             let '(r, u, k) := st in
             c <- chunk (k, x) ;; Ok (r ++ c, u, k + 1))
          l (r0, uid, n)
    = (cs <- mapR chunk (enumerate n l) ;;
       Ok (r0 ++ cat cs, uid, n + Z.of_nat (List.length l))).
Proof.
  induction l as [|x l IH]; intros r0 uid n.
  - simpl. now rewrite append_nil_r, Z.add_0_r.
  - cbn [foldR enumerate mapR List.length].
    destruct (chunk (n, x)) as [c|e]; [|reflexivity]. cbn [Py.bind].
    rewrite IH. destruct (mapR chunk (enumerate (n + 1) l)) as [cs|e]; [|reflexivity].
    cbn [Py.bind cat].
    replace (n + Z.of_nat (S (List.length l))) with (n + 1 + Z.of_nat (List.length l))
      by lia.
    now rewrite append_assoc.
Qed.

Section SimFacts.
Context {collab : Collaborators}.

(** X14.  Without the dummy signal, the simulation strategy emits one chunk
    per key of its map, numbered from 0: a continuous assignment for a
    single assignment, otherwise a block that assigns the target its reset
    value and then renders the target's statements filtered to that
    target.  It allocates no signal. *)
Theorem print_combinatorial_logic_sim_groups (f : Fragment) (ns0 : Namespace)
        (display_run blocking_assign : bool) (uid : Z) :
  _print_combinatorial_logic_sim f ns0 display_run false blocking_assign uid
  = match comb f with
    | [] => Ok (nl, uid)
    | _ :: _ =>
        chunks <- mapR (sim_group ns0 display_run blocking_assign)
                       (enumerate 0 (target_stmt_map (flat_iteration (comb f)))) ;;
        Ok (cat chunks ++ nl, uid)
    end.
Proof.
  unfold _print_combinatorial_logic_sim.
  destruct (comb f) as [|s0 c0] eqn:Ec; [reflexivity|].
  fold (target_stmt_map (flat_iteration (s0 :: c0))).
  cbv zeta.
  rewrite (foldR_ext _ (fun (st : string * Z * Z) x =>
                          let '(r, u, k) := st in
                          c <- sim_group ns0 display_run blocking_assign (k, x) ;;
                          Ok (r ++ c, u, k + 1))).
  - rewrite foldR_enumerated.
    destruct (mapR _ _) as [cs|e]; reflexivity.
  - intros [[r u] k] [t stmts]. unfold sim_group.
    assert (Hblock :
      (rv <- expr_text ns0 (EConstant (reset t)) ;;
       body <- _print_node ns0 (if blocking_assign then _AT_BLOCKING else _AT_NONBLOCKING)
                           1 (SList stmts) (Some t) ;;
       Ok ((((if display_run
              then (r ++ "always @(" ++ star ++ ") begin" ++ nl)
                   ++ tab ++ "$display(" ++ dquote ++ "Running comb block #"
                   ++ str k ++ dquote ++ ");" ++ nl
              else r ++ "always @(" ++ star ++ ") begin" ++ nl)
             ++ tab ++ get_name ns0 t ++ (if blocking_assign then " = " else " <= ")
             ++ rv ++ ";" ++ nl) ++ body) ++ "end" ++ nl, u, k + 1))
      = (c <- (body <- _print_node ns0 (if blocking_assign then _AT_BLOCKING
                                                   else _AT_NONBLOCKING)
                                   1 (SList stmts) (Some t) ;;
               Ok ("always @(" ++ star ++ ") begin" ++ nl
                   ++ (if display_run
                       then tab ++ "$display(" ++ dquote ++ "Running comb block #"
                                ++ str k ++ dquote ++ ");" ++ nl
                       else "")
                   ++ default_assignment ns0 blocking_assign t
                   ++ body ++ "end" ++ nl)) ;;
         Ok (r ++ c, u, k + 1))).
    { rewrite expr_text_constant. cbn [Py.bind].
      destruct (_print_node ns0 _ 1 (SList stmts) (Some t)) as [body|e];
        [|reflexivity].
      cbn [Py.bind]. unfold default_assignment. do 3 f_equal.
      destruct display_run; now reassoc. }
    destruct stmts as [|s [|s' stmts]]; try destruct s.
    all: try exact Hblock.
    rewrite print_node_assign. unfold continuous_assignment.
    cbn [assignment_text Py.bind tabs].
    destruct (expr_text ns0 l) as [lt|e]; [|reflexivity]. cbn [Py.bind].
    destruct (expr_text ns0 r0) as [rt|e]; reflexivity.
Qed.

End SimFacts.

(** ** Conversion with resolved domains, port naming *)

Section Resolved.
Context {collab : Collaborators}.



End Resolved.

Lemma name_io_once (io io1 : Signal) :
  name_io io = Ok io1 ->
  duid io1 = duid io /\ name_io io1 = Ok io1
  /\ (name_override io <> None -> io1 = io).
Proof.
  unfold name_io at 1. destruct (name_override io) as [n|] eqn:En.
  - intros [= <-]. unfold name_io. rewrite En. split; [|split]; congruence.
  - destruct (List.last (map Some (backtrace io)) None) as [[n|]|] eqn:El.
    + destruct (n =? "") eqn:Eq; intros [= <-].
      * unfold name_io. rewrite En, El, Eq. split; [|split]; congruence.
      * unfold name_io. cbn. split; [|split]; congruence.
    + intros [= <-]. unfold name_io. rewrite En, El. split; [|split]; congruence.
    + discriminate.
Qed.

(** X18.  The port-naming loop keeps every port's identity, leaves a port
    that has a fixed name as it is, and running it again on its own result
    changes nothing. *)
Theorem name_io_stable (l l' : list Signal) (H : mapR name_io l = Ok l') :
  map duid l' = map duid l
  /\ mapR name_io l' = Ok l'
  /\ Forall2 (fun io io' => name_override io <> None -> io' = io) l l'.
Proof.
  revert l' H. induction l as [|io l IH]; intros l' H; cbn [mapR] in H.
  - injection H as <-. repeat split. constructor.
  - destruct (name_io io) as [io1|e] eqn:E; [|discriminate]. cbn [Py.bind] in H.
    destruct (mapR name_io l) as [l1|e]; [|discriminate]. cbn [Py.bind] in H.
    injection H as <-. destruct (IH l1 eq_refl) as (Hd & Hm & Hf).
    destruct (name_io_once io io1 E) as (H1 & H2 & H3).
    split; [|split].
    + cbn [map]. now rewrite H1, Hd.
    + cbn [mapR]. now rewrite H2, Hm.
    + now constructor.
Qed.

(** ** Statements *)

Lemma Stmt_induction (P : Stmt -> Prop)
      (Hassign : forall l r, P (SAssign l r))
      (Hlist : forall body, Forall P body -> P (SList body))
      (Hif : forall cond t f, Forall P t -> Forall P f -> P (SIf cond t f))
      (Hcase : forall test cases,
          Forall (fun kv => Forall P (snd kv)) cases -> P (SCase test cases))
      (Hdisplay : forall s args, P (SDisplay s args))
      (Hfinish : P SFinish)
      (Hother : forall t, P (SOther t)) :
  forall node, P node.
Proof.
  fix IH 1. intros [l r|body|cond t f|test cases|s args| |t].
  - apply Hassign.
  - apply Hlist. induction body as [|n body IHb]; constructor; [apply IH | exact IHb].
  - apply Hif.
    + induction t as [|n t IHt]; constructor; [apply IH | exact IHt].
    + induction f as [|n f IHf]; constructor; [apply IH | exact IHf].
  - apply Hcase. induction cases as [|[k v] cases IHc]; constructor; [|exact IHc].
    cbn [snd]. induction v as [|n v IHv]; constructor; [apply IH | exact IHv].
  - apply Hdisplay.
  - apply Hfinish.
  - apply Hother.
Qed.

Lemma wf_stmt_list (body : list Stmt) :
  wf_stmt (SList body) = forallb wf_stmt body.
Proof.
  induction body as [|n body IH]; [reflexivity|].
  cbn [forallb]. rewrite <- IH. reflexivity.
Qed.

Lemma wf_stmt_if (cond : Expr) (t f : list Stmt) :
  wf_stmt (SIf cond t f) = wf_expr cond && (wf_stmt (SList t) && wf_stmt (SList f)).
Proof. reflexivity. Qed.

Lemma wf_stmt_case (test : Expr) (cases : list (CaseKey * list Stmt)) :
  wf_stmt (SCase test cases)
  = match cases with
    | [] => true
    | _ :: _ =>
        wf_expr test
        && forallb (fun kv => negb (rendered_key (fst kv)) || wf_stmt (SList (snd kv)))
                   cases
    end.
Proof.
  destruct cases as [|kv0 cases0]; [reflexivity|].
  set (cases := kv0 :: cases0). cbn [wf_stmt]. unfold cases at 1. cbv beta iota.
  f_equal. generalize cases. clear. intros cases.
  induction cases as [|[k v] cases IH]; [reflexivity|].
  cbn [forallb fst snd]. rewrite <- IH. reflexivity.
Qed.

Lemma mapR_raise {A B} (g : A -> Result B) (l : list A) (x : Exn) :
  mapR g l = Raise x -> exists a, In a l /\ g a = Raise x.
Proof.
  induction l as [|a l IH]; cbn [mapR]; [discriminate|].
  destruct (g a) as [b|e] eqn:E; cbn [Py.bind].
  - destruct (mapR g l) as [bs|e]; cbn [Py.bind]; [discriminate|].
    intros [= ->]. destruct (IH eq_refl) as [a' [Hin Ha]]. exists a'. split; auto.
    now right.
  - intros [= ->]. exists a. split; [now left | assumption].
Qed.

Lemma default_arm_In (arms : list (CaseKey * Result string)) (b : Result string) :
  default_arm arms = Some b ->
  exists k, rendered_key k = true /\ In (k, b) arms.
Proof.
  induction arms as [|[k body] arms IH]; cbn [default_arm]; [discriminate|].
  destruct k as [c|s].
  - intros H. destruct (IH H) as [k [Hk Hin]]. exists k. split; auto. now right.
  - destruct (s =? "default") eqn:E.
    + intros [= ->]. exists (KStr s). split; [exact E | now left].
    + intros H. destruct (IH H) as [k [Hk Hin]]. exists k. split; auto. now right.
Qed.

Lemma constant_arms_In (arms : list (CaseKey * Result string))
      (arm : Constant * Result string) :
  In arm (constant_arms arms) -> In (KConstant (fst arm), snd arm) arms.
Proof.
  unfold constant_arms. intros H. apply in_flat_map in H as [[k b] [Hin Hk]].
  destruct k as [c|s]; cbn in Hk; [|contradiction].
  destruct Hk as [<-|[]]. exact Hin.
Qed.

Lemma expr_text_accepts (ns0 : Namespace) (e : Expr) :
  match expr_text ns0 e with
  | Ok _ => wf_expr e = true
  | Raise x => wf_expr e = false /\ renderer_exception x
  end.
Proof.
  unfold expr_text. pose proof (expression_accepted ns0 e) as H. unfold accepted in H.
  destruct (_print_expression ns0 e) as [[r s]|x]; cbn [Py.bind]; tauto.
Qed.

Section StatementFacts.
Context {collab : Collaborators}.
Variables (ns0 : Namespace) (blocking_assign : bool).

Let mode : AssignType := if blocking_assign then _AT_BLOCKING else _AT_NONBLOCKING.

Let accepts := stmt_accepted ns0 blocking_assign.

Lemma accepted_body (body : list Stmt) :
  Forall accepts body -> accepts (SList body).
Proof.
  intros H level. fold mode. rewrite print_node_list, wf_stmt_list.
  induction H as [|n body Hn Hb IH]; [exact I|].
  cbn [mapR forallb]. specialize (Hn level). fold mode in Hn.
  destruct (_print_node ns0 mode level n None) as [r|x]; cbn [Py.bind].
  - destruct (mapR _ body) as [rs|x]; cbn [Py.bind] in *; [exact I|].
    rewrite IH. now rewrite andb_false_r.
  - now rewrite Hn.
Qed.

Lemma print_node_if (at_ : AssignType) (level : nat) (cond : Expr) (t f : list Stmt) :
  _print_node ns0 at_ level (SIf cond t f) None
  = (c <- expr_text ns0 cond ;;
     tt_ <- _print_node ns0 at_ (S level) (SList t) None ;;
     r <- (match f with
           | [] => Ok ((tabs level ++ "if (" ++ c ++ ") begin" ++ nl) ++ tt_)
           | _ :: _ =>
               ft <- _print_node ns0 at_ (S level) (SList f) None ;;
               Ok ((((tabs level ++ "if (" ++ c ++ ") begin" ++ nl) ++ tt_)
                    ++ tabs level ++ "end else begin" ++ nl) ++ ft)
           end) ;;
     Ok (r ++ tabs level ++ "end" ++ nl)).
Proof. reflexivity. Qed.

(** Rendering a statement can only fail on an ill-formed one. *)
Lemma node_accepted (node : Stmt) : accepts node.
Proof.
  induction node as [l r|body IH|cond t f IHt IHf|test cases IH|s args| |ty]
    using Stmt_induction.
  - intros level. fold mode. rewrite print_node_assign.
    assert (Hm : assignment_text mode l = Ok (if blocking_assign then " = " else " <= "))
      by (unfold mode; now destruct blocking_assign).
    rewrite Hm. cbn [Py.bind wf_stmt].
    pose proof (expr_text_accepts ns0 l) as Hl.
    pose proof (expr_text_accepts ns0 r) as Hr.
    destruct (expr_text ns0 l) as [lt|x]; cbn [Py.bind].
    + destruct (expr_text ns0 r) as [rt|x]; cbn [Py.bind]; [exact I|].
      destruct Hr as [-> Hx]. now rewrite andb_false_r.
    + now destruct Hl as [-> Hx].
  - now apply accepted_body.
  - intros level. fold mode. rewrite print_node_if, wf_stmt_if.
    pose proof (expr_text_accepts ns0 cond) as Hc.
    pose proof (accepted_body t IHt (S level)) as Ht.
    pose proof (accepted_body f IHf (S level)) as Hf.
    fold mode in Ht, Hf.
    destruct (expr_text ns0 cond) as [c|x]; cbn [Py.bind];
      [|now destruct Hc as [-> Hx]].
    destruct (_print_node ns0 mode (S level) (SList t) None) as [tt_|x];
      cbn [Py.bind];
      [|rewrite Ht; now rewrite andb_false_r].
    destruct f as [|n f]; [exact I|].
    destruct (_print_node ns0 mode (S level) (SList (n :: f)) None) as [ft|x];
      cbn [Py.bind]; [exact I|].
    rewrite Hf. now rewrite !andb_false_r.
  - intros level. fold mode. rewrite print_node_case, wf_stmt_case. cbn [filtered_out].
    destruct cases as [|kv0 cases0]; [exact I|].
    set (cases := kv0 :: cases0) in *.
    assert (Harm : forall k b x,
               In (k, b) (rendered_arms ns0 mode level None cases) ->
               rendered_key k = true -> b = Raise x ->
               forallb (fun kv => negb (rendered_key (fst kv))
                                  || wf_stmt (SList (snd kv))) cases = false).
    { intros k b x Hin Hk Hb. unfold rendered_arms in Hin.
      apply in_map_iff in Hin as [[k' v] [Heq Hin]].
      rewrite Forall_forall in IH. pose proof (IH _ Hin) as Hv. cbn [snd] in Hv.
      pose proof (accepted_body v Hv (S (S level))) as Ha. fold mode in Ha.
      assert (Hk' : k' = k) by (now inversion Heq).
      assert (Hb' : _print_node ns0 mode (S (S level)) (SList v) None = Raise x)
        by (rewrite <- Hb; now inversion Heq).
      rewrite Hb' in Ha.
      destruct (forallb _ cases) eqn:E; [|reflexivity].
      rewrite forallb_forall in E. specialize (E _ Hin). cbn [fst snd] in E.
      now rewrite Hk', Hk, Ha in E. }
    unfold case_text.
    pose proof (expr_text_accepts ns0 test) as Hc.
    destruct (expr_text ns0 test) as [c|x]; cbn [Py.bind];
      [|now destruct Hc as [-> Hx]].
    destruct (mapR _ _) as [texts|x] eqn:Em; cbn [Py.bind].
    + unfold case_default.
      destruct (default_arm (rendered_arms ns0 mode level None cases)) as [b|] eqn:Ed;
        [|exact I].
      destruct b as [b|x]; cbn [Py.bind]; [exact I|].
      apply default_arm_In in Ed as [k [Hk Hin]].
      rewrite (Harm k (Raise x) x Hin Hk eq_refl).
      now rewrite andb_false_r.
    + apply mapR_raise in Em as [[c' b] [Hin Hb]].
      unfold case_arm in Hb. cbn [fst snd] in Hb.
      destruct b as [b|x']; cbn [Py.bind] in Hb; [discriminate|].
      injection Hb as ->.
      assert (Hin' : In (c', Raise x) (constant_arms
                                         (rendered_arms ns0 mode level None cases))).
      { eapply Permutation_in; [apply Permutation_sym, sorted_perm | exact Hin]. }
      apply constant_arms_In in Hin'. cbn [fst snd] in Hin'.
      rewrite (Harm _ _ x Hin' eq_refl eq_refl).
      now rewrite andb_false_r.
  - intros level. exact I.
  - intros level. exact I.
  - intros level. reflexivity.
Qed.

(** X5.  In a blocking or non-blocking context and without a target filter,
    a well-formed statement renders at every indentation level: no
    assertion fails and no exception is raised anywhere below it.  (Arms of
    a [Case] whose key is neither a constant nor [default] are not printed
    and so are not required to be well-formed.) *)
Theorem print_node_accepts (node : Stmt) (level : nat) (H : wf_stmt node = true) :
  exists r, _print_node ns0 mode level node None = Ok r.
Proof.
  pose proof (node_accepted node level) as Ha. fold mode in Ha.
  destruct (_print_node ns0 mode level node None) as [r|x]; [eauto | congruence].
Qed.

End StatementFacts.

(** ** Structural primitives, statement lists, module header *)

Lemma foldR_pairs {A B} (chunk : A -> Result (string * list B)) (l : list A) :
  forall (r0 : string) (f0 : list B),
    foldR (fun (st : string * list B) (x : A) =>
             c <- chunk x ;; Ok (fst st ++ fst c, (snd st ++ snd c)%list))
          l (r0, f0)
    = (cs <- mapR chunk l ;;
       Ok (r0 ++ cat (map fst cs), (f0 ++ concat (map snd cs))%list)).
Proof.
  induction l as [|x l IH]; intros r0 f0.
  - simpl. now rewrite append_nil_r, app_nil_r.
  - cbn [foldR mapR]. destruct (chunk x) as [[c fs]|e]; [|reflexivity].
    cbn [Py.bind fst snd]. rewrite IH.
    destruct (mapR chunk l) as [cs|e]; [|reflexivity].
    cbn [Py.bind map concat cat fst snd]. now rewrite append_assoc, <- app_assoc.
Qed.

Section SpecialFacts.
Context {collab : Collaborators}.

(** X16.  The structural primitives are emitted in creation order; each
    contributes its attribute annotation followed by its emitter's text;
    the registered files are collected in the same order; an emitter that
    returns nothing makes the whole call raise [NotImplementedError]. *)
Theorem print_specials_chunks (overrides : Overrides) (specials : list Special)
        (ns0 : Namespace) (attr_translate : AttrTranslate) :
  _print_specials overrides specials ns0 attr_translate
  = (chunks <- mapR (special_chunk overrides ns0 attr_translate)
                    (sorted by_sp_duid specials) ;;
     Ok (cat (map fst chunks), concat (map snd chunks))).
Proof.
  unfold _print_specials.
  rewrite (foldR_ext _ (fun (st : string * list DataFile) x =>
                          c <- special_chunk overrides ns0 attr_translate x ;;
                          Ok (fst st ++ fst c, (snd st ++ snd c)%list))).
  - now rewrite foldR_pairs.
  - intros [r files] special. unfold special_chunk. cbn [fst snd].
    destruct (sp_attr special) as [attr|].
    + destruct (_print_attribute attr attr_translate) as [a|e]; [|reflexivity].
      cbn [Py.bind].
      destruct (if sp_is_memory special then _ else _) as [[[pr|] fs]|e];
        cbn [Py.bind fst snd]; try reflexivity.
      destruct (a =? ""); f_equal; f_equal; now reassoc.
    + cbn [Py.bind].
      destruct (if sp_is_memory special then _ else _) as [[[pr|] fs]|e];
        cbn [Py.bind fst snd]; reflexivity.
Qed.

(** X8.  Under a target filter a list of statements renders empty when the
    list does not write the target, and otherwise as the concatenation of
    its statements rendered under the same filter. *)
Theorem print_node_list_filtered (ns0 : Namespace) (at_ : AssignType) (level : nat)
        (body : list Stmt) (target_filter : option Signal) :
  _print_node ns0 at_ level (SList body) target_filter
  = if filtered_out target_filter (SList body) then Ok ""
    else (rs <- mapR (fun n => _print_node ns0 at_ level n target_filter) body ;;
          Ok (cat rs)).
Proof.
  cbn [_print_node]. destruct (filtered_out target_filter (SList body)); [reflexivity|].
  induction body as [|n body IH]; [reflexivity|].
  cbn [mapR]. destruct (_print_node ns0 at_ level n target_filter) as [r|e];
    [|reflexivity].
  cbn [Py.bind]. rewrite IH.
  destruct (mapR _ body) as [rs|e]; reflexivity.
Qed.

(** X11.  The module header declares one port per element of [ios], in
    creation order and separated by commas; the declarations that follow are
    one per signal of the fragment that is not a port. *)
Theorem print_module_ports (f : Fragment) (ios : list Signal) (name : string)
        (ns0 : Namespace) (attr_translate : AttrTranslate) (reg_initialization : bool) :
  _print_module f ios name ns0 attr_translate reg_initialization
  = (ports <- mapR (port_line f ns0 attr_translate) (sorted by_duid ios) ;;
     decls <- mapR (declaration f ns0 attr_translate reg_initialization)
                   (sorted by_duid
                      (sig_diff (sig_union (list_signals f)
                                           (list_special_ios f true true true)) ios)) ;;
     Ok ("module " ++ name ++ "(" ++ nl ++ join ("," ++ nl) ports ++ nl ++ ");"
         ++ nl ++ nl ++ cat decls ++ nl))
  /\ Permutation ios (sorted by_duid ios)
  /\ Sorted (fun a b => duid a <= duid b) (sorted by_duid ios)
  /\ (forall s, In s (sig_diff (sig_union (list_signals f)
                                          (list_special_ios f true true true)) ios) ->
                sig_in s ios = false).
Proof.
  split; [apply print_module_structure|]. split; [apply sorted_perm|]. split.
  - assert (H : Sorted (fun a b => by_duid a b = true) (sorted by_duid ios)).
    { apply sorted_Sorted. intros x y. unfold by_duid.
      destruct (Z.leb_spec (duid x) (duid y)); [now left|]. right. apply Z.leb_le. lia. }
    induction H as [|a l Hl IH Hh]; constructor; [exact IH|].
    destruct Hh; constructor. now apply Z.leb_le.
  - intros s H. unfold sig_diff in H. apply filter_In in H as [_ H].
    now apply negb_true_iff in H.
Qed.

(** X7.  A multiway branch with no case renders empty; otherwise it renders
    the test, the constant-keyed arms in ascending order of their values,
    the [default] arm last when there is one, and drops every other key. *)
Theorem print_node_case_arms (ns0 : Namespace) (at_ : AssignType) (level : nat)
        (test : Expr) (cases : list (CaseKey * list Stmt)) :
  let arms := rendered_arms ns0 at_ level None cases in
  _print_node ns0 at_ level (SCase test cases) None
  = match cases with
    | [] => Ok ""
    | _ :: _ => case_text ns0 level test arms
    end
  /\ Permutation (constant_arms arms) (sorted by_case_value (constant_arms arms))
  /\ Sorted (fun x y => case_key_value x <= case_key_value y)
            (sorted by_case_value (constant_arms arms)).
Proof.
  cbv zeta. split; [now rewrite print_node_case|]. split; [apply sorted_perm|].
  set (l := constant_arms _).
  assert (H : Sorted (fun a b => by_case_value a b = true) (sorted by_case_value l)).
  { apply sorted_Sorted. intros x y. unfold by_case_value.
    destruct (Z.leb_spec (case_key_value x) (case_key_value y)); [now left|].
    right. apply Z.leb_le. lia. }
  induction H as [|a l' Hl IH Hh]; constructor; [exact IH|].
  destruct Hh; constructor. now apply Z.leb_le.
Qed.

End SpecialFacts.

Import Reference.


Lemma print_combinatorial_logic_synth_groups_witness :
  emit_group Reference.plain_ns false ([Scenario.a], [SFinish])
  = level_sensitive_block Reference.plain_ns false [Scenario.a] [SFinish].
Proof.
  exact (proj2 (proj2 (print_combinatorial_logic_synth_groups
                         Reference.plain_ns false Scenario.idle))
               [Scenario.a] [SFinish] eq_refl).
Defined.

(** C9, the claim as stated fails.  With the domains [pll] and [adc] both
    referenced, both missing, and auto-creation off, the error names [adc]
    alone: [pll] does not occur in its message.  With a block of domain
    [cd_x] and auto-creation on, the domain that [ClockDomain("cd_x")]
    builds is named [x]: no domain named [cd_x] is registered afterwards. *)
Lemma convert_unresolved_domain_not_named :
  (In "pll" (map fst (sync Scenario.two_missing))
   /\ registered (clock_domains Scenario.two_missing) "pll" = false
   /\ returned (convert fresh_world Scenario.two_missing None "top" tt
                        DummyAttrTranslate false false true true false true)
      = Raise (Exception ("Unresolved clock domain adc, availables:" ++ nl))
   /\ occurs "pll" ("Unresolved clock domain adc, availables:" ++ nl) = false)
  /\ (In "cd_x" (map fst (sync Scenario.prefixed))
      /\ registered (clock_domains Scenario.prefixed) "cd_x" = false
      /\ map cd_name
             (clock_domains
                (fragment_after (convert fresh_world Scenario.prefixed None "top" tt
                                         DummyAttrTranslate true false true true false
                                         true)))
         = ["x"]
      /\ registered
           (clock_domains
              (fragment_after (convert fresh_world Scenario.prefixed None "top" tt
                                       DummyAttrTranslate true false true true false
                                       true))) "cd_x"
         = false).
Proof.
  split; (split; [simpl; auto|]); repeat split; vm_compute; reflexivity.
Qed.

Lemma convert_unresolved_domain_witness :
  returned (convert fresh_world Scenario.two_missing None "top" tt
                    DummyAttrTranslate false false true true false true)
  = Raise (Exception ("Unresolved clock domain adc, availables:" ++ nl))
  /\ exists created,
       clock_domains
         (fragment_after (convert fresh_world Scenario.two_missing None "top" tt
                                  DummyAttrTranslate true false true true false true))
       = created
       /\ Forall (exposed
                    (ios_after (convert fresh_world Scenario.two_missing None "top" tt
                                        DummyAttrTranslate true false true true false
                                        true))) created.
Proof.
  destruct (convert_unresolved_domain (collab := Reference.collaborators)
              fresh_world Scenario.two_missing None
              "top" tt DummyAttrTranslate false true true false true "pll")
    as (missing & Hm & _ & Hoff & _ & _ & created & Hc & Hx & _).
  - intros d Hd. exact Hd.
  - simpl. now left.
  - reflexivity.
  - vm_compute in Hm. injection Hm as <-.
    split; [exact Hoff|]. exists created. split; [exact Hc | exact Hx].
Defined.

(** C1.  Three calls in a row, each leaving [ios] at its default: [idle],
    then [clocked] (whose missing domain is created, its clock and reset
    going into the set bound to [ios]), then [idle] again.  The set created
    for the default value is one object for all calls, so the third call
    starts with the two signals the second call left in it and declares them
    as ports: the first and the third call, on the same fragment with the
    same configuration, return different documents. *)
Theorem convert_default_ios_shared :
  let first := Scenario.run Reference.fresh_world Scenario.idle in
  let second := Scenario.run (world_after first) Scenario.clocked in
  let third := Scenario.run (world_after second) Scenario.idle in
  Scenario.text first
  = Some (generated_banner "//" ++ "module top(" ++ nl ++ nl ++ ");" ++ nl ++ nl
          ++ nl ++ nl ++ "endmodule" ++ nl)
  /\ default_ios (world_after first) = []
  /\ map derived_name (default_ios (world_after second)) = ["sys_clk"; "sys_rst"]
  /\ Scenario.text third
     = Some (generated_banner "//" ++ "module top(" ++ nl
             ++ tab ++ "input wire sys_clk," ++ nl
             ++ tab ++ "input wire sys_rst" ++ nl ++ ");" ++ nl ++ nl
             ++ nl ++ nl ++ "endmodule" ++ nl)
  /\ Scenario.text first <> Scenario.text third.
Proof.
  repeat split; try (vm_compute; reflexivity).
  vm_compute. discriminate.
Qed.

(** ** Concrete instances of the further properties *)

Lemma print_ternary_operator_witness :
  _print_operator plain_ns "m"
    [ESignal Samples.o; ESignal Scenario.a; ESignal Samples.b]
  = Ok ("(o ? $signed({1'd0 a})) : b)", true).
Proof.
  exact (proj2 (print_ternary_operator plain_ns "m" (ESignal Samples.o)
                  (ESignal Scenario.a) (ESignal Samples.b))
               "o" false "a" false "b" true eq_refl eq_refl eq_refl).
Defined.

Lemma print_node_accepts_witness :
  exists r,
    _print_node plain_ns _AT_NONBLOCKING 0
      (SIf (ESignal Samples.o)
           [SAssign (ESignal Scenario.a) (EConstant Scenario.one)] []) None
    = Ok r.
Proof.
  exact (print_node_accepts (collab := Reference.collaborators) plain_ns false
           (SIf (ESignal Samples.o)
                [SAssign (ESignal Scenario.a) (EConstant Scenario.one)] [])
           0%nat eq_refl).
Defined.

Lemma print_operator_arity_witness :
  _print_operator plain_ns "+" [] = Raise AssertionError.
Proof.
  exact (print_operator_arity plain_ns "+" [] (or_introl eq_refl)).
Defined.

Lemma print_node_case_order_witness :
  _print_node plain_ns _AT_BLOCKING 0 (SCase (ESignal Scenario.a) Samples.arms_21) None
  = _print_node plain_ns _AT_BLOCKING 0 (SCase (ESignal Scenario.a) Samples.arms_12) None.
Proof.
  apply print_node_case_order.
  - apply perm_swap.
  - simpl. constructor.
    + simpl. intros [H|[]]. discriminate H.
    + constructor; [intros [] | constructor].
Defined.

Lemma print_attribute_entries_witness :
  Permutation [AttrTuple "x" (AStr "y"); AttrName "keep"]
              [AttrName "keep"; AttrTuple "x" (AStr "y")]
  /\ Sorted (fun x y => attr_le x y = Ok true)
            [AttrName "keep"; AttrTuple "x" (AStr "y")].
Proof.
  exact (proj2 (print_attribute_entries [AttrTuple "x" (AStr "y"); AttrName "keep"]
                                        DummyAttrTranslate)
               [AttrName "keep"; AttrTuple "x" (AStr "y")] eq_refl).
Defined.

Lemma print_attribute_string_values_witness :
  exists r, _print_attribute [AttrName "keep"; AttrTuple "x" (AStr "y")]
                             DummyAttrTranslate = Ok r.
Proof.
  apply print_attribute_string_values.
  constructor; [exact I|]. constructor; [exact I|]. constructor.
Defined.

Lemma print_module_ports_witness : sig_in Samples.o [Scenario.a] = false.
Proof.
  apply (proj2 (proj2 (proj2 (print_module_ports (collab := Reference.collaborators)
                                Samples.mixed [Scenario.a] "top" plain_ns
                                DummyAttrTranslate true)))).
  vm_compute. auto.
Defined.

Lemma target_stmt_map_groups_witness :
  NoDup (map duid (map_keys (target_stmt_map Samples.mixed_comb))).
Proof.
  apply (target_stmt_map_groups (collab := Reference.collaborators) Samples.mixed_comb).
  repeat (constructor; simpl); intros [].
Defined.


Lemma name_io_stable_witness : mapR name_io [Samples.named] = Ok [Samples.named].
Proof.
  exact (proj1 (proj2 (name_io_stable [Samples.unnamed] [Samples.named] eq_refl))).
Defined.
